(** * rlock: a mutual-exclusion lock kept in a relational store

    Shallow embedding of [rlock.go].  The Go code talks to three outside
    collaborators: the SQL database (through sqlx), the clock and timers of
    package [time], and the UUID generator.  They are gathered in the class
    [Env]; the repository's own functions are written over any [Env] in a
    small state monad that also keeps the heap of [RLock] objects (Go passes
    them by pointer) and a trace of every call made to the outside. *)

From Stdlib Require Import ZArith List String Ascii Bool Lia DecimalString.
Import ListNotations.
Open Scope string_scope.
Open Scope Z_scope.

(** ** Package [time] *)

(** [time.Duration] is an int64 count of nanoseconds. *)
Definition Duration := Z.
Definition Nanosecond : Duration := 1.
Definition Second : Duration := 1000000000 * Nanosecond.
Definition Minute : Duration := 60 * Second.
Definition Hour : Duration := 60 * Minute.
Definition minDuration : Duration := - 2 ^ 63.
Definition maxDuration : Duration := 2 ^ 63 - 1.

(** An instant, in nanoseconds on the environment's clock. *)
Definition Time := Z.

(** [Time.Sub]: the difference, saturated to the range of [Duration]. *)
Definition Sub (t u : Time) : Duration :=
  let d := t - u in
  if (minDuration <=? d) && (d <=? maxDuration) then d
  else if t <? u then minDuration else maxDuration.

(** ** Constants of the package *)

Definition TableName : string := "rlock".
Definition PollInterval : Duration := 1 * Second.
Definition MaxAge : Duration := 1 * Hour.

(** ** Errors

    Go compares errors by identity ([err == KeyNotFoundErr]); the package
    sentinels are therefore constructors of their own, distinct from a value
    built by [errors.New] or [fmt.Errorf] with the same text. *)
Inductive error : Type :=
| AcquireTimeoutErr
| KeyNotFoundErr
| sql_ErrNoRows
| MySQLError (Number : Z) (Message : string)
| errorString (s : string).

Definition itoa (n : Z) : string := NilZero.string_of_int (Z.to_int n).

(** The [Error()] method. *)
Definition Error (e : error) : string :=
  match e with
  | AcquireTimeoutErr => "reached timeout while waiting on lock"
  | KeyNotFoundErr => "no such lock"
  | sql_ErrNoRows => "sql: no rows in result set"
  | MySQLError n m => "Error " ++ itoa n ++ ": " ++ m
  | errorString s => s
  end.

(** A value that is either a result or an error: what a Go call returning
    [(T, error)] hands back when exactly one of the two is set. *)
Definition fallible (A : Type) : Type := (A + error)%type.

(** ** UUIDs (github.com/satori/go.uuid)

    A UUID is an array of 16 bytes; [UUID.String] prints the canonical
    8-4-4-4-12 hexadecimal form. *)
Definition UUID := list Byte.byte.

Definition hexdigit (n : N) : ascii :=
  match n with
  | 0%N => "0" | 1%N => "1" | 2%N => "2" | 3%N => "3" | 4%N => "4"
  | 5%N => "5" | 6%N => "6" | 7%N => "7" | 8%N => "8" | 9%N => "9"
  | 10%N => "a" | 11%N => "b" | 12%N => "c" | 13%N => "d" | 14%N => "e"
  | _ => "f"
  end%char.

Fixpoint hex_Encode (bs : list Byte.byte) : string :=
  match bs with
  | [] => ""
  | b :: rest =>
      let n := Byte.to_N b in
      String (hexdigit (N.div n 16)) (String (hexdigit (N.modulo n 16)) (hex_Encode rest))
  end.

Definition slice {A} (l : list A) (lo hi : nat) : list A :=
  firstn (hi - lo) (skipn lo l).

Definition UUID_String (u : UUID) : string :=
  hex_Encode (slice u 0 4) ++ "-" ++ hex_Encode (slice u 4 6) ++ "-" ++
  hex_Encode (slice u 6 8) ++ "-" ++ hex_Encode (slice u 8 10) ++ "-" ++
  hex_Encode (skipn 10 u).

(** [uuid.Must(uuid.FromString("3cd4853f-ad8f-40f9-8558-014dd707b7b4"))] *)
Definition nsUUID : UUID :=
  [Byte.x3c; Byte.xd4; Byte.x85; Byte.x3f; Byte.xad; Byte.x8f; Byte.x40; Byte.xf9;
   Byte.x85; Byte.x58; Byte.x01; Byte.x4d; Byte.xd7; Byte.x07; Byte.xb7; Byte.xb4].

(** ** The data model *)

(** A row of table [rlock]. *)
Record LockEntry : Type := mkLockEntry {
  ID : Z;
  Name : string;
  Owner : string;
  InUse : bool;
  LastError : string;
  LastUsed : Time;
  CreatedAt : Time
}.

(** A database handle ([*sqlx.DB] when not nil). *)
Definition DB := nat.

(** The lock manager. *)
Record RLock : Type := mkRLock {
  db : option DB;
  owner : string
}.

(** A pointer to an [RLock] on the heap; [None] is nil. *)
Definition ptr := option nat.

(** The lock handle. *)
Record Lock : Type := mkLock {
  rl : ptr;
  name : string;
  timeout : Duration
}.

(** ** SQL statements

    The code builds four texts with [?] placeholders and passes the
    arguments beside them.  A statement is kept here in parsed form, each
    placeholder already replaced by its argument: a [Field] is one
    [column = value] pair, as it stands in a [VALUES], [SET] or [WHERE]
    list ([in_use=1] is [F_in_use true], [in_use=0] is [F_in_use false]). *)
Inductive Field : Type :=
| F_name (v : string)
| F_owner (v : string)
| F_in_use (v : bool)
| F_last_error (v : string).

Inductive Stmt : Type :=
| INSERT (values : list Field)
| UPDATE (set : list Field) (where_ : list Field)
| SELECT_star (where_ : list Field)
| SELECT_last_error (where_ : list Field).

(** [column = value] as a test on a row. *)
Definition holds (f : Field) (row : LockEntry) : bool :=
  match f with
  | F_name v => String.eqb (Name row) v
  | F_owner v => String.eqb (Owner row) v
  | F_in_use v => Bool.eqb (InUse row) v
  | F_last_error v => String.eqb (LastError row) v
  end.

(** A [WHERE] list joins its tests with [AND]. *)
Definition where_holds (conds : list Field) (row : LockEntry) : bool :=
  forallb (fun f => holds f row) conds.

(** [column = value] as an assignment to a row. *)
Definition assign (f : Field) (row : LockEntry) : LockEntry :=
  match f with
  | F_name v => mkLockEntry (ID row) v (Owner row) (InUse row) (LastError row) (LastUsed row) (CreatedAt row)
  | F_owner v => mkLockEntry (ID row) (Name row) v (InUse row) (LastError row) (LastUsed row) (CreatedAt row)
  | F_in_use v => mkLockEntry (ID row) (Name row) (Owner row) v (LastError row) (LastUsed row) (CreatedAt row)
  | F_last_error v => mkLockEntry (ID row) (Name row) (Owner row) (InUse row) v (LastUsed row) (CreatedAt row)
  end.

Definition apply_set (sets : list Field) (row : LockEntry) : LockEntry :=
  fold_left (fun r f => assign f r) sets row.

(** [sql.Result]: only [RowsAffected] is read by the code. *)
Record Result : Type := mkResult {
  RowsAffected : fallible Z
}.

(** ** The environment *)

Class Env (W : Type) : Type := {
  (** [db.Exec(query, args...)] *)
  db_Exec : DB -> Stmt -> W -> fallible Result * W;
  (** [db.Get(&entry, query, args...)] into a [LockEntry] *)
  db_Get_entry : DB -> Stmt -> W -> fallible LockEntry * W;
  (** [db.Get(&s, query, args...)] into a string *)
  db_Get_string : DB -> Stmt -> W -> fallible string * W;
  (** the reading of the clock *)
  clock : W -> Time;
  (** [time.Sleep] *)
  time_Sleep : Duration -> W -> W;
  (** [case <-timer.C:] in a [select] that has a [default]: whether a
      value was there to receive from the channel of the timer set for the
      given instant; time may pass while the program gets there *)
  timer_C : Time -> W -> bool * W;
  (** the longest the runtime takes to deliver a timer that is due *)
  timer_lag : Duration;
  (** [Time.String] *)
  time_String : Time -> string;
  uuid_NewV1 : W -> fallible UUID * W;
  uuid_NewV4 : W -> fallible UUID * W;
  uuid_NewV5 : UUID -> string -> UUID
}.

(** What the poll loop needs of time to come to an end: a statement and a
    [select] do not set the clock back, a sleep lasts at least as long as
    asked, and a timer is delivered after its instant, never before it
    ("after at least duration d") and no later than [timer_lag] after it. *)
Class Timely (W : Type) `{Env W} : Prop := {
  clock_Exec : forall d q w, clock w <= clock (snd (db_Exec d q w));
  clock_Sleep : forall d w, clock w + Z.max 0 d <= clock (time_Sleep d w);
  clock_timer_C : forall timer w, clock w <= clock (snd (timer_C timer w));
  timer_not_early : forall timer w,
    fst (timer_C timer w) = true -> timer <= clock (snd (timer_C timer w));
  timer_delivered : forall timer w,
    timer + timer_lag <= clock w -> fst (timer_C timer w) = true
}.

(** ** The monad of the embedding *)

(** What the program did to the outside, in order. *)
Inductive Event : Type :=
| EvExec (d : DB) (q : Stmt)
| EvGet (d : DB) (q : Stmt)
| EvSleep (d : Duration)
| EvLog (msg : string).

(** The state: the outside world, the heap of lock managers (a pointer is
    an index into it) and the trace so far. *)
Record St (W : Type) : Type := mkSt {
  world : W;
  heap : list RLock;
  trace : list Event
}.
Arguments mkSt {W} _ _ _.
Arguments world {W} _.
Arguments heap {W} _.
Arguments trace {W} _.

(** A call returns, panics, or (the poll loop only) is cut off by the
    bound on its iterations. *)
Inductive Outcome (A : Type) : Type :=
| Done (a : A)
| Panic (msg : string)
| OutOfFuel.
Arguments Done {A} _.
Arguments Panic {A} _.
Arguments OutOfFuel {A}.

Definition M (W A : Type) : Type := St W -> Outcome A * St W.

Definition ret {W A} (a : A) : M W A := fun st => (Done a, st).

Definition bind {W A B} (c : M W A) (k : A -> M W B) : M W B :=
  fun st =>
    match c st with
    | (Done a, st') => k a st'
    | (Panic msg, st') => (Panic msg, st')
    | (OutOfFuel, st') => (OutOfFuel, st')
    end.

Declare Scope go_scope.
Delimit Scope go_scope with go.
Notation "x <- c ;; k" := (bind c (fun x => k))
  (at level 100, c at next level, right associativity) : go_scope.
Notation "c ;;; k" := (bind c (fun _ => k))
  (at level 100, right associativity) : go_scope.
Open Scope go_scope.

Definition panic {W A} (msg : string) : M W A := fun st => (Panic msg, st).
Definition out_of_fuel {W A} : M W A := fun st => (OutOfFuel, st).

Definition nil_deref : string :=
  "runtime error: invalid memory address or nil pointer dereference".

Section Primitives.
Context {W : Type} `{Env W}.

Definition emit (e : Event) : M W unit :=
  fun st => (Done tt, mkSt (world st) (heap st) (trace st ++ [e])%list).

(** Lift a call on the world. *)
Definition call {A} (f : W -> A * W) : M W A :=
  fun st => let (a, w) := f (world st) in (Done a, mkSt w (heap st) (trace st)).

(** [*r] *)
Definition deref (r : ptr) : M W RLock :=
  fun st =>
    match r with
    | None => (Panic nil_deref, st)
    | Some a =>
        match nth_error (heap st) a with
        | Some m => (Done m, st)
        | None => (Panic nil_deref, st)
        end
    end.

(** [&RLock{...}] *)
Definition alloc (m : RLock) : M W ptr :=
  fun st =>
    (Done (Some (List.length (heap st))), mkSt (world st) (heap st ++ [m])%list (trace st)).

(** A method called through a nil [*sqlx.DB] panics. *)
Definition Exec (d : option DB) (q : Stmt) : M W (fallible Result) :=
  match d with
  | None => panic nil_deref
  | Some d => emit (EvExec d q);;; call (db_Exec d q)
  end.

Definition Get_entry (d : option DB) (q : Stmt) : M W (fallible LockEntry) :=
  match d with
  | None => panic nil_deref
  | Some d => emit (EvGet d q);;; call (db_Get_entry d q)
  end.

Definition Get_string (d : option DB) (q : Stmt) : M W (fallible string) :=
  match d with
  | None => panic nil_deref
  | Some d => emit (EvGet d q);;; call (db_Get_string d q)
  end.

(** [time.Now()] *)
Definition Now : M W Time := fun st => (Done (clock (world st)), st).

(** [time.Since(t)] *)
Definition Since (t : Time) : M W Duration := now <- Now;; ret (Sub now t).

(** [time.Sleep(d)] *)
Definition Sleep (d : Duration) : M W unit :=
  emit (EvSleep d);;; call (fun w => (tt, time_Sleep d w)).

(** [time.NewTimer(d)]: the timer is represented by the instant it is set
    for, [d] from the reading of the clock, or that reading when [d] is not
    positive.  When its value is delivered on the channel is up to the
    environment, see [fired]. *)
Definition NewTimer (d : Duration) : M W Time :=
  now <- Now;; ret (now + Z.max 0 d).

(** [case <-timer.C:] of the [select]: the environment says whether the
    receive proceeds; when it does not, the [default] branch is taken. *)
Definition fired (timer : Time) : M W bool := call (timer_C timer).

(** [log.Error(err)] *)
Definition log_Error (e : error) : M W unit := emit (EvLog (Error e)).

(** ** The code of [rlock.go] *)

Definition generateUUID : M W UUID :=
  r1 <- call uuid_NewV1;;
  match r1 with
  | inl id => ret id
  | inr _ =>
      r4 <- call uuid_NewV4;;
      match r4 with
      | inl id => ret id
      | inr _ => now <- Now;; ret (uuid_NewV5 nsUUID (time_String now))
      end
  end.

Definition New (db : option DB) : M W (ptr * option error) :=
  match db with
  | None => ret (None, Some (errorString "db cannot be nil"))
  | Some _ =>
      id <- generateUUID;;
      r <- alloc (mkRLock db (UUID_String id));;
      ret (r, None)
  end.

(** The [WHERE] list of the takeover statement:
    [name=? AND in_use=0 AND owner=?], or [name=? AND owner=?] when forced. *)
Definition takeover_where (origName origOwner : string) (force : bool) : list Field :=
  if force then [F_name origName; F_owner origOwner]
  else [F_name origName; F_in_use false; F_owner origOwner].

(** [UPDATE rlock SET owner=?, in_use=1 WHERE ...] with arguments
    [r.owner, origName, origOwner]. *)
Definition takeover_query (self origName origOwner : string) (force : bool) : Stmt :=
  UPDATE [F_owner self; F_in_use true] (takeover_where origName origOwner force).

Definition takeover (r : ptr) (origName origOwner : string) (force : bool)
  : M W (option error) :=
  m <- deref r;;
  let query := takeover_query (owner m) origName origOwner force in
  res <- Exec (db m) query;;
  match res with
  | inr err =>
      ret (Some (errorString ("unable to take over '" ++ origName ++ "': " ++ Error err)))
  | inl res =>
      match RowsAffected res with
      | inr err =>
          ret (Some (errorString
            ("unable to determine rows affected during takeover for '" ++ origName
             ++ "': " ++ Error err)))
      | inl affected =>
          if 1 <? affected then
            ret (Some (errorString "lock takeover affected more than 1 row, possible bug"))
          else if affected =? 0 then
            ret (Some (errorString "unable to takeover lock, still in use"))
          else ret None
      end
  end.

(** [SELECT * FROM rlock WHERE name=?] *)
Definition getExistingByName (r : ptr) (name : string)
  : M W (option LockEntry * option error) :=
  m <- deref r;;
  let query := SELECT_star [F_name name] in
  got <- Get_entry (db m) query;;
  match got with
  | inr err =>
      match err with
      | sql_ErrNoRows => ret (None, Some KeyNotFoundErr)
      | _ => ret (None, Some err)
      end
  | inl entry => ret (Some entry, None)
  end.

Definition isValid (existingLock : option LockEntry) (newLockName : string)
    (newLockTimeout : Duration) : M W (option error) :=
  match existingLock with
  | None => ret (Some (errorString "existing lock cannot be nil"))
  | Some e =>
      if negb (InUse e) then ret (Some (errorString "existing lock is not in use"))
      else
        age <- Since (LastUsed e);;
        if MaxAge <? age then ret (Some (errorString "existing lock is stale"))
        else ret None
  end.

(** [existingLock.Owner] *)
Definition entry_Owner (existingLock : option LockEntry) : M W string :=
  match existingLock with
  | None => panic nil_deref
  | Some e => ret (Owner e)
  end.

(** The [for { select { ... } }] loop of [Lock]; [fuel] bounds the number
    of times the [select] is reached. *)
Fixpoint poll (fuel : nat) (r : ptr) (name : string) (acquireTimeout : Duration)
    (existingLock : option LockEntry) (timer : Time) : M W (option Lock * option error) :=
  match fuel with
  | O => out_of_fuel
  | S fuel' =>
      expired <- fired timer;;
      if expired then ret (None, Some AcquireTimeoutErr)
      else
        Sleep PollInterval;;;
        o <- entry_Owner existingLock;;
        err <- takeover r name o false;;
        match err with
        | Some _ => poll fuel' r name acquireTimeout existingLock timer
        | None => ret (Some (mkLock r name acquireTimeout), None)
        end
  end.

(** [INSERT INTO rlock (name, owner, in_use) VALUES(?, ?, 1)] *)
Definition insert_query (name self : string) : Stmt :=
  INSERT [F_name name; F_owner self; F_in_use true].

(** The error is a MySQL error whose [Number] is 1062 (duplicate entry). *)
Definition is_dupe (err : error) : bool :=
  match err with
  | MySQLError n _ => n =? 1062
  | _ => false
  end.

Definition RLock_Lock (fuel : nat) (r : ptr) (name : string) (acquireTimeout : Duration)
  : M W (option Lock * option error) :=
  m <- deref r;;
  let query := insert_query name (owner m) in
  ins <- Exec (db m) query;;
  match ins with
  | inr err =>
      if is_dupe err then
        (* Got an error, but it was a dupe, let's inspect the lock *)
        got <- getExistingByName r name;;
        let (existingLock, err) := got in
        match err with
        | Some KeyNotFoundErr => ret (None, Some (errorString "lock no longer exists"))
        | Some err =>
            ret (None, Some (errorString ("unable to fetch existing lock: " ++ Error err)))
        | None =>
            invalid <- isValid existingLock name acquireTimeout;;
            match invalid with
            | Some _ =>
                (* Existing lock is not valid *)
                o <- entry_Owner existingLock;;
                err <- takeover r name o true;;
                match err with
                | Some err =>
                    ret (None, Some (errorString
                      ("unable to take over lock '" ++ name ++ "': " ++ Error err)))
                | None => ret (Some (mkLock r name acquireTimeout), None)
                end
            | None =>
                (* Existing lock is valid, poll until available or timeout *)
                timer <- NewTimer acquireTimeout;;
                poll fuel r name acquireTimeout existingLock timer
            end
        end
      else
        ret (None, Some (errorString
          ("unable to insert lock for '" ++ name ++ "': " ++ Error err)))
  | inl _ =>
      (* No error, no dupe *)
      ret (Some (mkLock r name acquireTimeout), None)
  end.

(** [UPDATE rlock SET in_use=0, last_error=? WHERE name=? AND owner=?] *)
Definition unlock_query (lastErrorStr name self : string) : Stmt :=
  UPDATE [F_in_use false; F_last_error lastErrorStr] [F_name name; F_owner self].

Definition Lock_Unlock (l : Lock) (lastError : option error) : M W (option error) :=
  let lastErrorStr :=
    match lastError with
    | None => ""
    | Some e => Error e
    end in
  m <- deref (rl l);;
  let query := unlock_query lastErrorStr (name l) (owner m) in
  res <- Exec (db m) query;;
  match res with
  | inr err =>
      let fullErr := errorString ("unable to unlock '" ++ name l ++ "': " ++ Error err) in
      log_Error fullErr;;; ret (Some fullErr)
  | inl result =>
      match RowsAffected result with
      | inr err =>
          let fullErr := errorString
            ("unable to determine affected rows after unlock for '" ++ name l
             ++ "': " ++ Error err) in
          log_Error fullErr;;; ret (Some fullErr)
      | inl affected =>
          if negb (affected =? 1) then
            let fullErr := errorString
              ("unexpected number of affected rows after unlock (" ++ itoa affected ++ ")") in
            log_Error fullErr;;; ret (Some fullErr)
          else ret None
      end
  end.

(** [SELECT last_error FROM rlock WHERE name=? AND owner=?] *)
Definition last_error_query (name self : string) : Stmt :=
  SELECT_last_error [F_name name; F_owner self].

Definition Lock_LastError (l : Lock) : M W (option error) :=
  m <- deref (rl l);;
  let query := last_error_query (name l) (owner m) in
  got <- Get_string (db m) query;;
  match got with
  | inr err =>
      ret (Some (errorString
        ("unexpected error while fetching last error state: " ++ Error err)))
  | inl lastError =>
      if String.eqb lastError "" then ret None
      else ret (Some (errorString lastError))
  end.

End Primitives.

(** ** States reached by the calls to the outside *)

Section States.
Context {W : Type} `{Env W}.

(** The pointer [r] leads to the manager [m]. *)
Definition points_to (st : St W) (r : ptr) (m : RLock) : Prop :=
  match r with
  | Some a => nth_error (heap st) a = Some m
  | None => False
  end.

Definition st_Exec (d : DB) (q : Stmt) (st : St W) : St W :=
  mkSt (snd (db_Exec d q (world st))) (heap st) (trace st ++ [EvExec d q])%list.

Definition st_Get_entry (d : DB) (q : Stmt) (st : St W) : St W :=
  mkSt (snd (db_Get_entry d q (world st))) (heap st) (trace st ++ [EvGet d q])%list.

Definition st_Get_string (d : DB) (q : Stmt) (st : St W) : St W :=
  mkSt (snd (db_Get_string d q (world st))) (heap st) (trace st ++ [EvGet d q])%list.

(** The state after the [select] of the poll loop has looked at the
    timer's channel. *)
Definition st_select (timer : Time) (st : St W) : St W :=
  mkSt (snd (timer_C timer (world st))) (heap st) (trace st).

Definition st_Sleep (d : Duration) (st : St W) : St W :=
  mkSt (time_Sleep d (world st)) (heap st) (trace st ++ [EvSleep d])%list.

(** What [takeover] answers to the outcome of its statement. *)
Definition takeover_answer (origName : string) (res : fallible Result) : option error :=
  match res with
  | inr err =>
      Some (errorString ("unable to take over '" ++ origName ++ "': " ++ Error err))
  | inl res =>
      match RowsAffected res with
      | inr err =>
          Some (errorString
            ("unable to determine rows affected during takeover for '" ++ origName
             ++ "': " ++ Error err))
      | inl affected =>
          if 1 <? affected then
            Some (errorString "lock takeover affected more than 1 row, possible bug")
          else if affected =? 0 then
            Some (errorString "unable to takeover lock, still in use")
          else None
      end
  end.

(** The events of [k] turns of the poll loop. *)
Definition turns (d : DB) (upd : Stmt) (k : nat) : list Event :=
  List.concat (repeat [EvSleep PollInterval; EvExec d upd] k).

(** The state after one turn of the poll loop whose [select] took the
    [default] branch: the look at the timer's channel, the sleep of
    [PollInterval], the statement [upd] of the takeover. *)
Definition st_turn (d : DB) (upd : Stmt) (timer : Time) (st : St W) : St W :=
  st_Exec d upd (st_Sleep PollInterval (st_select timer st)).

(** The state after [k] such turns. *)
Fixpoint st_turns (d : DB) (upd : Stmt) (timer : Time) (k : nat) (st : St W) : St W :=
  match k with
  | O => st
  | S k' => st_turns d upd timer k' (st_turn d upd timer st)
  end.

(** A computation that leaves the heap of managers as it found it. *)
Definition keeps_heap {A} (c : M W A) : Prop :=
  forall st, heap (snd (c st)) = heap st.

(** Whatever a computation returns satisfies [P]. *)
Definition yields {A} (P : A -> Prop) (c : M W A) : Prop :=
  forall st a st', c st = (Done a, st') -> P a.

(** The handle, if one is returned, is the one for [r], [nm] and [t]. *)
Definition handle_for (r : ptr) (nm : string) (t : Duration)
    (out : option Lock * option error) : Prop :=
  forall l, fst out = Some l -> rl l = r /\ name l = nm /\ timeout l = t.

End States.

(** ** An environment to run the code in: a table in memory

    To reach every branch of the code the world carries, beside the table
    and the clock, a script of faults for the coming database calls, the
    statements that other clients will issue and when, and the identifiers
    the UUID generator will give. *)
Module MemStore.

Inductive Fault : Type :=
| NoFault
| CallFails (e : error)
| RowsAffectedFails (e : error)
| RowsAffectedIs (n : Z).

Record Mem : Type := mkMem {
  table : list LockEntry;
  now : Time;
  next_id : Z;
  faults : list Fault;
  others : list (Time * Stmt);
  ids : list UUID
}.

Definition blank_row (id : Z) (t : Time) : LockEntry :=
  mkLockEntry id "" "" false "" t t.

(** [ON UPDATE CURRENT_TIMESTAMP] on [last_used]. *)
Definition touch (t : Time) (row : LockEntry) : LockEntry :=
  mkLockEntry (ID row) (Name row) (Owner row) (InUse row) (LastError row) t (CreatedAt row).

Definition name_taken (n : string) (rows : list LockEntry) : bool :=
  existsb (fun r => String.eqb (Name r) n) rows.

(** Modelled from the spec: the table behind the statements (its schema
    and the database server are not part of the sources).  One row per lock
    name, [name] unique; [last_used] is refreshed by every update of a row
    and [created_at] is set once; an insert that would repeat a name fails
    with MySQL error 1062; the rows affected by an update are those its
    [WHERE] list selects.

    A statement run on the table at instant [t] gives the number of rows
    affected, or the server's error, and the table afterwards. *)
Definition run_stmt (t : Time) (id : Z) (q : Stmt) (rows : list LockEntry)
  : fallible Z * list LockEntry :=
  match q with
  | INSERT values =>
      let row := apply_set values (blank_row id t) in
      if name_taken (Name row) rows then
        (inr (MySQLError 1062
                ("Duplicate entry '" ++ Name row ++ "' for key 'name'")), rows)
      else (inl 1, (rows ++ [row])%list)
  | UPDATE set where_ =>
      (inl (Z.of_nat (List.length (filter (where_holds where_) rows))),
       map (fun r => if where_holds where_ r then touch t (apply_set set r) else r) rows)
  | SELECT_star _ | SELECT_last_error _ => (inl 0, rows)
  end.

Definition next_fault (w : Mem) : Fault * Mem :=
  match faults w with
  | [] => (NoFault, w)
  | f :: rest => (f, mkMem (table w) (now w) (next_id w) rest (others w) (ids w))
  end.

Definition mem_Exec (d : DB) (q : Stmt) (w : Mem) : fallible Result * Mem :=
  let (f, w) := next_fault w in
  match f with
  | CallFails e => (inr e, w)
  | _ =>
      let (res, rows) := run_stmt (now w) (next_id w) q (table w) in
      let w' := mkMem rows (now w) (next_id w + 1) (faults w) (others w) (ids w) in
      match res with
      | inr e => (inr e, w')
      | inl n =>
          match f with
          | RowsAffectedFails e => (inl (mkResult (inr e)), w')
          | RowsAffectedIs k => (inl (mkResult (inl k)), w')
          | _ => (inl (mkResult (inl n)), w')
          end
      end
  end.

Definition no_rows {A} (o : option A) : fallible A :=
  match o with
  | Some a => inl a
  | None => inr sql_ErrNoRows
  end.

Definition mem_Get_entry (d : DB) (q : Stmt) (w : Mem) : fallible LockEntry * Mem :=
  let (f, w) := next_fault w in
  match f with
  | CallFails e => (inr e, w)
  | _ =>
      match q with
      | SELECT_star where_ => (no_rows (find (where_holds where_) (table w)), w)
      | _ => (inr (errorString "sql: expected a query returning rows"), w)
      end
  end.

Definition mem_Get_string (d : DB) (q : Stmt) (w : Mem) : fallible string * Mem :=
  let (f, w) := next_fault w in
  match f with
  | CallFails e => (inr e, w)
  | _ =>
      match q with
      | SELECT_last_error where_ =>
          (no_rows (option_map LastError (find (where_holds where_) (table w))), w)
      | _ => (inr (errorString "sql: expected a query returning rows"), w)
      end
  end.

(** The statements of the other clients that fall due by instant [t] are
    run in order; the rest stay on the list. *)
Fixpoint run_others (t : Time) (id : Z) (todo : list (Time * Stmt)) (rows : list LockEntry)
  : list (Time * Stmt) * list LockEntry * Z :=
  match todo with
  | [] => ([], rows, id)
  | (at_, q) :: rest =>
      if at_ <=? t then
        run_others t (id + 1) rest (snd (run_stmt at_ id q rows))
      else
        let '(todo', rows', id') := run_others t id rest rows in
        ((at_, q) :: todo', rows', id')
  end.

Definition mem_Sleep (d : Duration) (w : Mem) : Mem :=
  let t := now w + Z.max 0 d in
  let '(todo, rows, id) := run_others t (next_id w) (others w) (table w) in
  mkMem rows t id (faults w) todo (ids w).

Definition NewUUID (w : Mem) : fallible UUID * Mem :=
  match ids w with
  | [] => (inr (errorString "uuid: no identifier available"), w)
  | u :: rest => (inl u, mkMem (table w) (now w) (next_id w) (faults w) (others w) rest)
  end.

(** A timer's value is on its channel as soon as the clock of this
    environment reaches the instant the timer is set for, and looking at
    the channel takes no time: the environment of a runtime that delivers
    without lag. *)
Definition mem_timer_C (timer : Time) (w : Mem) : bool * Mem := (timer <=? now w, w).

(** Stand-ins for the formatting of an instant and for the name-based
    generator, which none of the properties below depends on. *)
Definition Time_String (t : Time) : string := itoa t.
Definition NewV5 (ns : UUID) (s : string) : UUID := ns.

#[global] Instance env : Env Mem := {|
  db_Exec := mem_Exec;
  db_Get_entry := mem_Get_entry;
  db_Get_string := mem_Get_string;
  clock := now;
  time_Sleep := mem_Sleep;
  timer_C := mem_timer_C;
  timer_lag := 0;
  time_String := Time_String;
  uuid_NewV1 := NewUUID;
  uuid_NewV4 := NewUUID;
  uuid_NewV5 := NewV5
|}.

(** The same environment under a slower runtime: reaching the [select]
    takes [latency], and a timer's value is on its channel [lag] after the
    instant the timer is set for. *)
Definition slow_timer_C (lag latency : Duration) (timer : Time) (w : Mem) : bool * Mem :=
  let w' := mkMem (table w) (now w + latency) (next_id w) (faults w) (others w) (ids w) in
  (timer + lag <=? now w', w').

Definition slow_env (lag latency : Duration) : Env Mem := {|
  db_Exec := mem_Exec;
  db_Get_entry := mem_Get_entry;
  db_Get_string := mem_Get_string;
  clock := now;
  time_Sleep := mem_Sleep;
  timer_C := slow_timer_C lag latency;
  timer_lag := lag;
  time_String := Time_String;
  uuid_NewV1 := NewUUID;
  uuid_NewV4 := NewUUID;
  uuid_NewV5 := NewV5
|}.

(** A world with the given rows at instant [t], no fault and no other
    client. *)
Definition quiet (rows : list LockEntry) (t : Time) : Mem :=
  mkMem rows t 1 [] [] [nsUUID].

End MemStore.

(** ** Two managers and a lock, to run the code on *)

Definition alice : RLock := mkRLock (Some 0%nat) "A".
Definition bob : RLock := mkRLock (Some 0%nat) "B".

(** A state with [alice] at address 0 and [bob] at address 1. *)
Definition two_managers (w : MemStore.Mem) : St MemStore.Mem := mkSt w [alice; bob] [].

(** The row of lock job-17 as [alice] holds it, last used at instant [t],
    and as she has released it with the message [msg]. *)
Definition held (t : Time) : LockEntry := mkLockEntry 1 "job-17" "A" true "" t 0.
Definition released (msg : string) (t : Time) : LockEntry :=
  mkLockEntry 1 "job-17" "A" false msg t 0.

(** The row of another lock, job-18, held by a third manager. *)
Definition other_job : LockEntry := mkLockEntry 2 "job-18" "C" true "" 0 0.

(** ** Views of the table *)

(** The rows of the locks other than [nm]. *)
Definition other_rows (nm : string) (rows : list LockEntry) : list LockEntry :=
  filter (fun r => negb (String.eqb (Name r) nm)) rows.

(** The names of the locks in the table. *)
Definition names (rows : list LockEntry) : list string := map Name rows.

(** Some row says that the lock [nm] is held by [self]. *)
Definition held_by (nm self : string) (rows : list LockEntry) : Prop :=
  exists row, In row rows /\ Name row = nm /\ Owner row = self /\ InUse row = true.

(** The statements that the code issues for the lock [nm]. *)
Definition for_lock (nm : string) (q : Stmt) : Prop :=
  (exists self, q = insert_query nm self)
  \/ (exists self o force, q = takeover_query self nm o force)
  \/ (exists msg self, q = unlock_query msg nm self).

(** The table [rows] compared with an earlier table [rows0]: the rows of
    the locks other than [nm] are the same, the names are still distinct
    if they were, and no row has gone. *)
Definition frame (nm : string) (rows0 rows : list LockEntry) : Prop :=
  other_rows nm rows = other_rows nm rows0
  /\ (NoDup (names rows0) -> NoDup (names rows))
  /\ (List.length rows0 <= List.length rows)%nat.

(** ** The clock of the table in memory *)

Section MemClock.
Import MemStore.

Lemma now_next_fault w : now (snd (next_fault w)) = now w.
Proof. unfold next_fault. destruct (faults w); reflexivity. Qed.

Lemma mem_clock_Exec d q w : now w <= now (snd (mem_Exec d q w)).
Proof.
  unfold mem_Exec. pose proof (now_next_fault w) as E.
  destruct (next_fault w) as [f w1]. cbn [snd] in E.
  destruct (run_stmt (now w1) (next_id w1) q (table w1)) as [[n|e] rows];
    destruct f; cbn; lia.
Qed.

Lemma mem_clock_Sleep d w : now w + Z.max 0 d <= now (mem_Sleep d w).
Proof.
  unfold mem_Sleep.
  destruct (run_others _ _ _ _) as [[todo rows] id]. cbn. lia.
Qed.

Lemma mem_timer_not_early timer w :
  fst (mem_timer_C timer w) = true -> timer <= now (snd (mem_timer_C timer w)).
Proof. cbn. apply Z.leb_le. Qed.

Lemma mem_timer_delivered timer w :
  timer + 0 <= now w -> fst (mem_timer_C timer w) = true.
Proof. cbn. intros Hdue. apply Z.leb_le. lia. Qed.

#[global] Instance mem_timely : Timely Mem.
Proof.
  split; [exact mem_clock_Exec|exact mem_clock_Sleep|intros timer w; cbn; lia
         |exact mem_timer_not_early|exact mem_timer_delivered].
Qed.

End MemClock.

(** ** Runs of the primitives *)

Section Runs.
Context {W : Type} `{Env W}.

Lemma deref_run (st : St W) r m : points_to st r m -> deref r st = (Done m, st).
Proof.
  destruct r as [a|]; cbn; [|tauto]. intros ->. reflexivity.
Qed.

Lemma Exec_run d q (st : St W) :
  Exec (Some d) q st = (Done (fst (db_Exec d q (world st))), st_Exec d q st).
Proof.
  unfold Exec, bind, emit, call, st_Exec. cbn.
  destruct (db_Exec d q (world st)); reflexivity.
Qed.

Lemma Get_entry_run d q (st : St W) :
  Get_entry (Some d) q st
  = (Done (fst (db_Get_entry d q (world st))), st_Get_entry d q st).
Proof.
  unfold Get_entry, bind, emit, call, st_Get_entry. cbn.
  destruct (db_Get_entry d q (world st)); reflexivity.
Qed.

Lemma Get_string_run d q (st : St W) :
  Get_string (Some d) q st
  = (Done (fst (db_Get_string d q (world st))), st_Get_string d q st).
Proof.
  unfold Get_string, bind, emit, call, st_Get_string. cbn.
  destruct (db_Get_string d q (world st)); reflexivity.
Qed.

Lemma Sleep_run d (st : St W) : Sleep d st = (Done tt, st_Sleep d st).
Proof. reflexivity. Qed.

Lemma points_to_st_Exec d q (st : St W) r m : points_to st r m -> points_to (st_Exec d q st) r m.
Proof. destruct r; exact (fun x => x). Qed.

Lemma points_to_st_Get_entry d q (st : St W) r m :
  points_to st r m -> points_to (st_Get_entry d q st) r m.
Proof. destruct r; exact (fun x => x). Qed.

Lemma points_to_st_Sleep d (st : St W) r m : points_to st r m -> points_to (st_Sleep d st) r m.
Proof. destruct r; exact (fun x => x). Qed.

Lemma takeover_run (st : St W) r m d origName origOwner force :
  points_to st r m -> db m = Some d ->
  let q := takeover_query (owner m) origName origOwner force in
  takeover r origName origOwner force st
  = (Done (takeover_answer origName (fst (db_Exec d q (world st)))), st_Exec d q st).
Proof.
  intros Hr Hd q. unfold takeover, bind.
  rewrite (deref_run _ _ _ Hr), Hd, Exec_run. fold q.
  unfold takeover_answer.
  destruct (fst (db_Exec d q (world st))) as [res|err]; [|reflexivity].
  destruct (RowsAffected res) as [n|err]; [|reflexivity].
  destruct (1 <? n); [reflexivity|]. destruct (n =? 0); reflexivity.
Qed.

End Runs.

(** ** Takeover *)

Section Takeover.
Context {W : Type} `{Env W}.

Lemma where_holds_takeover origName origOwner force row :
  where_holds (takeover_where origName origOwner force) row = true
  <-> Name row = origName /\ Owner row = origOwner
      /\ (force = false -> InUse row = false).
Proof.
  unfold takeover_where, where_holds.
  destruct force; cbn [forallb holds];
    rewrite ?andb_true_iff, ?String.eqb_eq, ?eqb_true_iff; intuition congruence.
Qed.

(** C1. [takeover(name, observedOwner, force)] issues one conditional
    update.  Not forced, it selects the rows whose name and owner are the
    given ones and whose in_use is false; forced, the rows whose name and
    owner are the given ones, whatever in_use.  In both modes it writes the
    caller's own token to owner and true to in_use.  Of the number of rows
    the store reports affected: the call succeeds iff it is one, answers
    the guard-failed error when it is zero, and another, internal
    consistency error when it is more than one.  (The count is an int64;
    the last part of the statement says what a success tells in general:
    the statement went through and the count read was one, or negative,
    which no count of rows is.) *)
Theorem takeover_contract (st : St W) (r : ptr) (m : RLock) (d : DB)
    (origName origOwner : string) (force : bool) :
  points_to st r m -> db m = Some d ->
  let guard :=
    if force then [F_name origName; F_owner origOwner]
    else [F_name origName; F_in_use false; F_owner origOwner] in
  let q := UPDATE [F_owner (owner m); F_in_use true] guard in
  let guard_failed := errorString "unable to takeover lock, still in use" in
  let inconsistent :=
    errorString "lock takeover affected more than 1 row, possible bug" in
  (forall row,
      where_holds guard row = true
      <-> Name row = origName /\ Owner row = origOwner
          /\ (force = false -> InUse row = false))
  /\ (forall row,
        Owner (apply_set [F_owner (owner m); F_in_use true] row) = owner m
        /\ InUse (apply_set [F_owner (owner m); F_in_use true] row) = true)
  /\ guard_failed <> inconsistent
  /\ exists out,
      takeover r origName origOwner force st = (Done out, st_Exec d q st)
      /\ (forall res n,
            fst (db_Exec d q (world st)) = inl res ->
            RowsAffected res = inl n -> 0 <= n ->
            (out = None <-> n = 1)
            /\ (n = 0 -> out = Some guard_failed)
            /\ (1 < n -> out = Some inconsistent))
      /\ (out = None ->
          exists res n,
            fst (db_Exec d q (world st)) = inl res /\ RowsAffected res = inl n
            /\ (n = 1 \/ n < 0)).
Proof.
  intros Hr Hd guard q guard_failed inconsistent.
  split; [exact (where_holds_takeover origName origOwner force)|].
  split; [intros row; split; reflexivity|].
  split; [discriminate|].
  eexists. split; [exact (takeover_run st r m d origName origOwner force Hr Hd)|].
  change (takeover_query (owner m) origName origOwner force) with q.
  split.
  - intros res n Hres Hn Hpos.
    rewrite Hres. cbn [takeover_answer]. rewrite Hn.
    destruct (Z.ltb_spec 1 n) as [Hgt|Hle].
    + repeat split; intros; try lia; try discriminate; reflexivity.
    + destruct (Z.eqb_spec n 0) as [->|Hnz];
        repeat split; intros; try lia; try discriminate; reflexivity.
  - unfold takeover_answer.
    destruct (fst (db_Exec d q (world st))) as [res|e]; [|discriminate].
    destruct (RowsAffected res) as [n|e] eqn:Hn; [|discriminate].
    destruct (Z.ltb_spec 1 n); [discriminate|].
    destruct (Z.eqb_spec n 0); [discriminate|].
    intros _. exists res, n. repeat split; [exact Hn|lia].
Qed.

(** A store failure, or a failure to read the count, is an error too. *)
Lemma takeover_store_failure (st : St W) r m d origName origOwner force :
  points_to st r m -> db m = Some d ->
  let q := takeover_query (owner m) origName origOwner force in
  (forall e, fst (db_Exec d q (world st)) = inr e ->
     fst (takeover r origName origOwner force st)
     = Done (Some (errorString
               ("unable to take over '" ++ origName ++ "': " ++ Error e))))
  /\ (forall res e, fst (db_Exec d q (world st)) = inl res ->
        RowsAffected res = inr e ->
        fst (takeover r origName origOwner force st)
        = Done (Some (errorString
                  ("unable to determine rows affected during takeover for '"
                   ++ origName ++ "': " ++ Error e)))).
Proof.
  intros Hr Hd q.
  rewrite (takeover_run st r m d origName origOwner force Hr Hd). fold q.
  split.
  - intros e ->. reflexivity.
  - intros res e -> He. cbn. rewrite He. reflexivity.
Qed.

(** The count is an int64: a negative one, which no row count is, would
    pass both tests of [takeover]. *)
Lemma takeover_answer_negative origName n :
  n < 0 -> takeover_answer origName (inl (mkResult (inl n))) = None.
Proof.
  intros Hn. cbn.
  destruct (Z.ltb_spec 1 n); [lia|]. destruct (Z.eqb_spec n 0); [lia|reflexivity].
Qed.

End Takeover.

(** The contract of takeover at work: [bob] takes over, not forced, the lock that
    [alice] has released; one row is affected and the call succeeds. *)
Lemma takeover_contract_witness :
  let st := two_managers (MemStore.quiet [released "" 0] 5) in
  points_to st (Some 1%nat) bob /\ db bob = Some 0%nat /\ 0 <= 1
  /\ fst (takeover (Some 1%nat) "job-17" "A" false st) = Done None.
Proof.
  intros st.
  destruct (takeover_contract st (Some 1%nat) bob 0%nat "job-17" "A" false
              eq_refl eq_refl) as (_ & _ & _ & out & Hrun & Hcount & _).
  destruct (Hcount (mkResult (inl 1)) 1 eq_refl eq_refl (Z.le_0_1)) as (Hone & _ & _).
  split; [reflexivity|]. split; [reflexivity|]. split; [exact Z.le_0_1|].
  rewrite Hrun. cbn [fst]. f_equal. apply Hone. reflexivity.
Defined.

(** ** Release and the handoff channel *)

Section Release.
Context {W : Type} `{Env W}.

(** C4. [Unlock(err)] issues one conditional update that writes false to
    in_use and the message of [err] (the empty string when [err] is nil)
    to last_error, on the rows whose name is the handle's and whose owner
    is the manager's own token.  It returns nil iff the store reports
    exactly one row affected; any other count, a failure to read the
    count and a failure of the statement are returned as errors. *)
Theorem Unlock_contract (st : St W) (l : Lock) (m : RLock) (d : DB)
    (lastError : option error) :
  points_to st (rl l) m -> db m = Some d ->
  let msg := match lastError with None => "" | Some e => Error e end in
  let guard := [F_name (name l); F_owner (owner m)] in
  let q := UPDATE [F_in_use false; F_last_error msg] guard in
  (forall row, where_holds guard row = true
               <-> Name row = name l /\ Owner row = owner m)
  /\ (forall row,
        InUse (apply_set [F_in_use false; F_last_error msg] row) = false
        /\ LastError (apply_set [F_in_use false; F_last_error msg] row) = msg)
  /\ exists out st',
      Lock_Unlock l lastError st = (Done out, st')
      /\ world st' = snd (db_Exec d q (world st))
      /\ heap st' = heap st
      /\ (exists logged, trace st' = trace st ++ EvExec d q :: map EvLog logged)%list
      /\ (out = None
          <-> exists res, fst (db_Exec d q (world st)) = inl res
                          /\ RowsAffected res = inl 1)
      /\ (forall e, fst (db_Exec d q (world st)) = inr e ->
            out = Some (errorString
                    ("unable to unlock '" ++ name l ++ "': " ++ Error e)))
      /\ (forall res n, fst (db_Exec d q (world st)) = inl res ->
            RowsAffected res = inl n -> n <> 1 ->
            out = Some (errorString
                    ("unexpected number of affected rows after unlock ("
                     ++ itoa n ++ ")"))).
Proof.
  intros Hr Hd msg guard q.
  split.
  { intros row. unfold guard, where_holds. cbn [forallb holds].
    rewrite ?andb_true_iff, ?String.eqb_eq. intuition congruence. }
  split; [intros row; split; reflexivity|].
  unfold Lock_Unlock, bind.
  rewrite (deref_run _ _ _ Hr), Hd, Exec_run.
  fold msg. change (unlock_query msg (name l) (owner m)) with q.
  destruct (fst (db_Exec d q (world st))) as [res|e] eqn:Hres.
  - destruct (RowsAffected res) as [n|e] eqn:Hn.
    + destruct (Z.eqb_spec n 1) as [->|Hne]; cbn [negb].
      * exists None, (st_Exec d q st).
        repeat split; try reflexivity.
        -- exists []. reflexivity.
        -- intros _. exists res. split; [reflexivity|assumption].
        -- intros e He. discriminate.
        -- intros res' n' Hres' Hn' Hne. congruence.
      * eexists _, _. split; [reflexivity|]. cbn.
        repeat split.
        -- eexists [_]. rewrite <- app_assoc. reflexivity.
        -- discriminate.
        -- intros (res' & Hres' & Hn'). congruence.
        -- discriminate.
        -- intros res' n' Hres' Hn' _. congruence.
    + eexists _, _. split; [reflexivity|]. cbn.
      repeat split.
      * eexists [_]. rewrite <- app_assoc. reflexivity.
      * discriminate.
      * intros (res' & Hres' & Hn'). congruence.
      * discriminate.
      * intros res' n' Hres' Hn' _. congruence.
  - eexists _, _. split; [reflexivity|]. cbn.
    repeat split.
    + eexists [_]. rewrite <- app_assoc. reflexivity.
    + discriminate.
    + intros (res' & Hres' & _). discriminate.
    + intros e' He'. congruence.
    + discriminate.
Qed.

End Release.

(** The contract of release at work: [alice] releases the lock she holds with the
    message boom; one row is affected and the call returns nil. *)
Lemma Unlock_contract_witness :
  let st := two_managers (MemStore.quiet [held 0] 5) in
  let l := mkLock (Some 0%nat) "job-17" (2 * Second) in
  points_to st (rl l) alice /\ db alice = Some 0%nat
  /\ fst (Lock_Unlock l (Some (errorString "boom")) st) = Done None.
Proof.
  intros st l.
  destruct (Unlock_contract st l alice 0%nat (Some (errorString "boom"))
              eq_refl eq_refl) as (_ & _ & out & st' & Hrun & _ & _ & _ & Hone & _).
  split; [reflexivity|]. split; [reflexivity|].
  rewrite Hrun. cbn [fst]. f_equal. apply Hone.
  exists (mkResult (inl 1)). split; reflexivity.
Defined.

(** ** Acquisition: the fast path and the fetch *)

Section Acquire.
Context {W : Type} `{Env W}.

Lemma getExistingByName_run (st : St W) r m d name :
  points_to st r m -> db m = Some d ->
  let q := SELECT_star [F_name name] in
  getExistingByName r name st
  = (Done match fst (db_Get_entry d q (world st)) with
          | inl entry => (Some entry, None)
          | inr sql_ErrNoRows => (None, Some KeyNotFoundErr)
          | inr err => (None, Some err)
          end,
     st_Get_entry d q st).
Proof.
  intros Hr Hd q. unfold getExistingByName, bind.
  rewrite (deref_run _ _ _ Hr), Hd, Get_entry_run. fold q.
  destruct (fst (db_Get_entry d q (world st))) as [entry|[]]; reflexivity.
Qed.

(** The record handed to [Lock] by a fetch that reported no error is
    never nil. *)
Lemma getExistingByName_not_nil (st st' : St W) r name :
  getExistingByName r name st <> (Done (None, None), st').
Proof.
  unfold getExistingByName, bind.
  destruct (deref r st) as [[m| |] st1]; try discriminate.
  destruct (Get_entry (db m) (SELECT_star [F_name name]) st1) as [[[e|[]]| |] st2];
    discriminate.
Qed.

(** [Lock] up to the answer of the insert. *)
Lemma Lock_insert_run (st : St W) fuel r m d name acquireTimeout :
  points_to st r m -> db m = Some d ->
  let ins := insert_query name (owner m) in
  RLock_Lock fuel r name acquireTimeout st
  = match fst (db_Exec d ins (world st)) with
    | inl _ => (Done (Some (mkLock r name acquireTimeout), None), st_Exec d ins st)
    | inr err =>
        if is_dupe err then
          (got <- getExistingByName r name;;
           let (existingLock, err) := got in
           match err with
           | Some KeyNotFoundErr => ret (None, Some (errorString "lock no longer exists"))
           | Some err =>
               ret (None, Some (errorString
                      ("unable to fetch existing lock: " ++ Error err)))
           | None =>
               invalid <- isValid existingLock name acquireTimeout;;
               match invalid with
               | Some _ =>
                   o <- entry_Owner existingLock;;
                   err <- takeover r name o true;;
                   match err with
                   | Some err =>
                       ret (None, Some (errorString
                         ("unable to take over lock '" ++ name ++ "': " ++ Error err)))
                   | None => ret (Some (mkLock r name acquireTimeout), None)
                   end
               | None =>
                   timer <- NewTimer acquireTimeout;;
                   poll fuel r name acquireTimeout existingLock timer
               end
           end) (st_Exec d ins st)
        else
          (Done (None, Some (errorString
                   ("unable to insert lock for '" ++ name ++ "': " ++ Error err))),
           st_Exec d ins st)
    end.
Proof.
  intros Hr Hd ins. unfold RLock_Lock. unfold bind at 1.
  rewrite (deref_run _ _ _ Hr). unfold bind at 1. rewrite Hd, Exec_run. fold ins.
  destruct (fst (db_Exec d ins (world st))) as [res|err]; [reflexivity|].
  destruct (is_dupe err); reflexivity.
Qed.

(** C7. When the insert of the new record (owner = self, in_use = true)
    succeeds, [Lock] returns at once a handle with the requested name and
    timeout: the insert is the only call made to the store, so nothing is
    fetched, nothing is taken over and the poll loop is not entered
    (no bound on the loop is needed, and no sleep is in the trace). *)
Theorem Lock_fast_path (st : St W) (fuel : nat) (r : ptr) (m : RLock) (d : DB)
    (nm : string) (acquireTimeout : Duration) (res : Result) :
  points_to st r m -> db m = Some d ->
  let ins := INSERT [F_name nm; F_owner (owner m); F_in_use true] in
  fst (db_Exec d ins (world st)) = inl res ->
  exists l st',
    RLock_Lock fuel r nm acquireTimeout st = (Done (Some l, None), st')
    /\ name l = nm /\ timeout l = acquireTimeout /\ rl l = r
    /\ world st' = snd (db_Exec d ins (world st))
    /\ heap st' = heap st
    /\ trace st' = (trace st ++ [EvExec d ins])%list.
Proof.
  intros Hr Hd ins Hins.
  rewrite (Lock_insert_run st fuel r m d nm acquireTimeout Hr Hd).
  change (insert_query nm (owner m)) with ins. rewrite Hins.
  eexists _, _. repeat split.
Qed.

End Acquire.

(** ** Acquisition: contention *)

Section Contention.
Context {W : Type} `{Env W}.

(** The saturation of [Time.Sub] does not show in the comparison with
    [MaxAge]. *)
Lemma stale_iff (now lastUsed : Time) :
  (MaxAge <? Sub now lastUsed) = true <-> now - lastUsed > MaxAge.
Proof.
  assert (Hmax : maxDuration = 9223372036854775807) by reflexivity.
  assert (Hmin : minDuration = -9223372036854775808) by reflexivity.
  assert (Hage : MaxAge = 3600000000000) by reflexivity.
  unfold Sub. rewrite Hmax, Hmin, Hage.
  destruct (Z.leb_spec (-9223372036854775808) (now - lastUsed));
    destruct (Z.leb_spec (now - lastUsed) 9223372036854775807); cbn [andb];
    try destruct (Z.ltb_spec now lastUsed);
    rewrite Z.ltb_lt; lia.
Qed.

Lemma isValid_run (st : St W) (e : LockEntry) nm acquireTimeout :
  isValid (Some e) nm acquireTimeout st
  = (Done (if negb (InUse e) then Some (errorString "existing lock is not in use")
           else if MaxAge <? Sub (clock (world st)) (LastUsed e)
                then Some (errorString "existing lock is stale")
                else None),
     st).
Proof.
  unfold isValid. destruct (InUse e); cbn [negb]; [|reflexivity].
  unfold Since, Now. unfold bind, ret. cbv beta iota.
  destruct (MaxAge <? Sub (clock (world st)) (LastUsed e)); reflexivity.
Qed.

Lemma isValid_invalid_iff (st : St W) (e : LockEntry) nm acquireTimeout :
  fst (isValid (Some e) nm acquireTimeout st) <> Done None
  <-> InUse e = false
      \/ (InUse e = true /\ clock (world st) - LastUsed e > MaxAge).
Proof.
  rewrite isValid_run. cbn [fst]. rewrite <- stale_iff.
  destruct (InUse e); cbn [negb].
  - destruct (MaxAge <? Sub (clock (world st)) (LastUsed e)); split.
    + intros _. right. split; reflexivity.
    + intros _. discriminate.
    + intros Hx. exfalso. apply Hx. reflexivity.
    + intros [Hx|[_ Hx]]; discriminate.
  - split; [intros _; left; reflexivity | intros _; discriminate].
Qed.

Lemma invalid_bool_iff (now : Time) (e : LockEntry) :
  negb (InUse e) || (MaxAge <? Sub now (LastUsed e)) = true
  <-> InUse e = false \/ (InUse e = true /\ now - LastUsed e > MaxAge).
Proof.
  rewrite <- stale_iff.
  destruct (InUse e), (MaxAge <? Sub now (LastUsed e)); cbn; intuition congruence.
Qed.

(** [Lock] up to the answer of the fetch, after a duplicate on insert. *)
Lemma Lock_fetch_run (st : St W) fuel r m d nm acquireTimeout err :
  points_to st r m -> db m = Some d ->
  let ins := insert_query nm (owner m) in
  let sel := SELECT_star [F_name nm] in
  let st1 := st_Exec d ins st in
  let st2 := st_Get_entry d sel st1 in
  fst (db_Exec d ins (world st)) = inr err -> is_dupe err = true ->
  RLock_Lock fuel r nm acquireTimeout st
  = match fst (db_Get_entry d sel (world st1)) with
    | inr sql_ErrNoRows | inr KeyNotFoundErr =>
        (Done (None, Some (errorString "lock no longer exists")), st2)
    | inr err =>
        (Done (None, Some (errorString
                 ("unable to fetch existing lock: " ++ Error err))), st2)
    | inl e =>
        if negb (InUse e) || (MaxAge <? Sub (clock (world st2)) (LastUsed e)) then
          match takeover r nm (Owner e) true st2 with
          | (Done (Some err), st3) =>
              (Done (None, Some (errorString
                 ("unable to take over lock '" ++ nm ++ "': " ++ Error err))), st3)
          | (Done None, st3) => (Done (Some (mkLock r nm acquireTimeout), None), st3)
          | (Panic msg, st3) => (Panic msg, st3)
          | (OutOfFuel, st3) => (OutOfFuel, st3)
          end
        else
          poll fuel r nm acquireTimeout (Some e)
            (clock (world st2) + Z.max 0 acquireTimeout) st2
    end.
Proof.
  intros Hr Hd ins sel st1 st2 Hins Hdupe.
  rewrite (Lock_insert_run st fuel r m d nm acquireTimeout Hr Hd).
  fold ins. rewrite Hins, Hdupe. fold st1.
  unfold bind at 1.
  rewrite (getExistingByName_run st1 r m d nm (points_to_st_Exec _ _ _ _ _ Hr) Hd).
  fold sel. fold st2.
  destruct (fst (db_Get_entry d sel (world st1))) as [e|[]]; try reflexivity.
  unfold bind at 1. rewrite isValid_run.
  destruct (InUse e); cbn [negb orb].
  - destruct (MaxAge <? Sub (clock (world st2)) (LastUsed e)).
    + unfold bind, entry_Owner, ret.
      destruct (takeover r nm (Owner e) true st2) as [[[err'|]| |] st3]; reflexivity.
    + reflexivity.
  - unfold bind, entry_Owner, ret.
    destruct (takeover r nm (Owner e) true st2) as [[[err'|]| |] st3]; reflexivity.
Qed.

Lemma st_fetch_eq (st : St W) d ins sel :
  st_Get_entry d sel (st_Exec d ins st)
  = mkSt (snd (db_Get_entry d sel (snd (db_Exec d ins (world st))))) (heap st)
      (trace st ++ [EvExec d ins; EvGet d sel])%list.
Proof. unfold st_Get_entry, st_Exec. cbn. rewrite <- app_assoc. reflexivity. Qed.

(** [Lock] after a duplicate on insert and a fetch that returned the
    record [e]: one forced takeover when [e] is invalid, the poll loop
    when it is valid. *)
Lemma Lock_invalid_run (st : St W) fuel r m d nm acquireTimeout err e :
  points_to st r m -> db m = Some d ->
  let ins := insert_query nm (owner m) in
  let sel := SELECT_star [F_name nm] in
  let w1 := snd (db_Exec d ins (world st)) in
  let w2 := snd (db_Get_entry d sel w1) in
  let st2 := mkSt w2 (heap st) (trace st ++ [EvExec d ins; EvGet d sel])%list in
  let forced := takeover_query (owner m) nm (Owner e) true in
  fst (db_Exec d ins (world st)) = inr err -> is_dupe err = true ->
  fst (db_Get_entry d sel w1) = inl e ->
  InUse e = false \/ (InUse e = true /\ clock w2 - LastUsed e > MaxAge) ->
  takeover r nm (Owner e) true st2
  = (Done (takeover_answer nm (fst (db_Exec d forced w2))), st_Exec d forced st2)
  /\ RLock_Lock fuel r nm acquireTimeout st
     = (Done match takeover_answer nm (fst (db_Exec d forced w2)) with
             | None => (Some (mkLock r nm acquireTimeout), None)
             | Some err =>
                 (None, Some (errorString
                    ("unable to take over lock '" ++ nm ++ "': " ++ Error err)))
             end,
        st_Exec d forced st2).
Proof.
  intros Hr Hd ins sel w1 w2 st2 forced Hins Hdupe Hget Hinv.
  assert (Hr2 : points_to st2 r m) by (destruct r; exact Hr).
  pose proof (takeover_run st2 r m d nm (Owner e) true Hr2 Hd) as Htk.
  fold forced in Htk. change (world st2) with w2 in Htk.
  split; [exact Htk|].
  rewrite (Lock_fetch_run st fuel r m d nm acquireTimeout _ Hr Hd Hins Hdupe).
  fold ins sel. rewrite st_fetch_eq. fold w1 w2 st2.
  change (world (st_Exec d ins st)) with w1. rewrite Hget.
  change (world st2) with w2.
  rewrite (proj2 (invalid_bool_iff (clock w2) e) Hinv), Htk.
  destruct (takeover_answer nm _); reflexivity.
Qed.

Lemma Lock_valid_run (st : St W) fuel r m d nm acquireTimeout err e :
  points_to st r m -> db m = Some d ->
  let ins := insert_query nm (owner m) in
  let sel := SELECT_star [F_name nm] in
  let w1 := snd (db_Exec d ins (world st)) in
  let w2 := snd (db_Get_entry d sel w1) in
  let st2 := mkSt w2 (heap st) (trace st ++ [EvExec d ins; EvGet d sel])%list in
  fst (db_Exec d ins (world st)) = inr err -> is_dupe err = true ->
  fst (db_Get_entry d sel w1) = inl e ->
  ~ (InUse e = false \/ (InUse e = true /\ clock w2 - LastUsed e > MaxAge)) ->
  RLock_Lock fuel r nm acquireTimeout st
  = poll fuel r nm acquireTimeout (Some e) (clock w2 + Z.max 0 acquireTimeout) st2.
Proof.
  intros Hr Hd ins sel w1 w2 st2 Hins Hdupe Hget Hval.
  rewrite (Lock_fetch_run st fuel r m d nm acquireTimeout _ Hr Hd Hins Hdupe).
  fold ins sel. rewrite st_fetch_eq. fold w1 w2 st2.
  change (world (st_Exec d ins st)) with w1. rewrite Hget.
  change (world st2) with w2.
  destruct (negb (InUse e) || (MaxAge <? Sub (clock w2) (LastUsed e))) eqn:Hb;
    [|reflexivity].
  exfalso. apply Hval, invalid_bool_iff, Hb.
Qed.

(** C8. When the insert met a duplicate and the fetch that follows finds
    no record, [Lock] fails with the error lock no longer exists; any other
    failure of the fetch is wrapped and returned.  In both cases the
    insert and the fetch are the only calls made to the store: the insert
    is not tried again. *)
Theorem Lock_record_vanished (st : St W) (fuel : nat) (r : ptr) (m : RLock) (d : DB)
    (nm : string) (acquireTimeout : Duration) (msg : string) (e : error) :
  points_to st r m -> db m = Some d ->
  let ins := INSERT [F_name nm; F_owner (owner m); F_in_use true] in
  let sel := SELECT_star [F_name nm] in
  let w1 := snd (db_Exec d ins (world st)) in
  fst (db_Exec d ins (world st)) = inr (MySQLError 1062 msg) ->
  fst (db_Get_entry d sel w1) = inr e ->
  exists out st',
    RLock_Lock fuel r nm acquireTimeout st = (Done (None, Some out), st')
    /\ world st' = snd (db_Get_entry d sel w1)
    /\ heap st' = heap st
    /\ trace st' = (trace st ++ [EvExec d ins; EvGet d sel])%list
    /\ (e = sql_ErrNoRows -> out = errorString "lock no longer exists")
    /\ (e <> sql_ErrNoRows -> e <> KeyNotFoundErr ->
        out = errorString ("unable to fetch existing lock: " ++ Error e)).
Proof.
  intros Hr Hd ins sel w1 Hins Hget.
  rewrite (Lock_fetch_run st fuel r m d nm acquireTimeout _ Hr Hd Hins eq_refl).
  change (insert_query nm (owner m)) with ins. fold sel.
  rewrite st_fetch_eq. fold w1.
  change (world (st_Exec d ins st)) with w1. rewrite Hget.
  destruct e; eexists _, _; (split; [reflexivity|]); cbn;
    repeat split; intros; congruence.
Qed.

(** C2. After a duplicate on insert and a fetch that returned a record,
    the record is judged invalid exactly when it is not in use, or is in
    use and was last used more than [MaxAge] ago (a nil record is judged
    invalid too).  On an invalid record [Lock] makes one forced takeover,
    guarded by name and observed owner only: it returns a handle when the
    takeover succeeds and the takeover's error, wrapped, when it fails,
    and makes no other call.  On a valid record it enters the poll
    loop. *)
Theorem Lock_contention (st : St W) (fuel : nat) (r : ptr) (m : RLock) (d : DB)
    (nm : string) (acquireTimeout : Duration) (msg : string) (e : LockEntry) :
  points_to st r m -> db m = Some d ->
  let ins := INSERT [F_name nm; F_owner (owner m); F_in_use true] in
  let sel := SELECT_star [F_name nm] in
  let w1 := snd (db_Exec d ins (world st)) in
  let w2 := snd (db_Get_entry d sel w1) in
  let st2 := mkSt w2 (heap st) (trace st ++ [EvExec d ins; EvGet d sel])%list in
  let forced :=
    UPDATE [F_owner (owner m); F_in_use true] [F_name nm; F_owner (Owner e)] in
  let invalid :=
    InUse e = false \/ (InUse e = true /\ clock w2 - LastUsed e > MaxAge) in
  fst (db_Exec d ins (world st)) = inr (MySQLError 1062 msg) ->
  fst (db_Get_entry d sel w1) = inl e ->
  (fst (isValid (Some e) nm acquireTimeout st2) <> Done None <-> invalid)
  /\ fst (isValid None nm acquireTimeout st2) <> Done None
  /\ (invalid ->
      exists ans st3,
        takeover r nm (Owner e) true st2 = (Done ans, st3)
        /\ trace st3
           = (trace st ++ [EvExec d ins; EvGet d sel; EvExec d forced])%list
        /\ RLock_Lock fuel r nm acquireTimeout st
           = (Done match ans with
                   | None => (Some (mkLock r nm acquireTimeout), None)
                   | Some err =>
                       (None, Some (errorString
                          ("unable to take over lock '" ++ nm ++ "': " ++ Error err)))
                   end,
              st3))
  /\ (~ invalid ->
      RLock_Lock fuel r nm acquireTimeout st
      = poll fuel r nm acquireTimeout (Some e)
          (clock w2 + Z.max 0 acquireTimeout) st2).
Proof.
  intros Hr Hd ins sel w1 w2 st2 forced invalid Hins Hget.
  split; [exact (isValid_invalid_iff st2 e nm acquireTimeout)|].
  split; [discriminate|]. split.
  - intros Hinv.
    destruct (Lock_invalid_run st fuel r m d nm acquireTimeout _ e
                Hr Hd Hins eq_refl Hget Hinv) as (Htk & Hrun).
    eexists _, _. split; [exact Htk|]. split; [|exact Hrun].
    unfold st_Exec. cbn [trace]. rewrite <- app_assoc. reflexivity.
  - intros Hval.
    exact (Lock_valid_run st fuel r m d nm acquireTimeout _ e
             Hr Hd Hins eq_refl Hget Hval).
Qed.

End Contention.

(** ** Acquisition: the poll loop *)

Section PollLoop.
Context {W : Type} `{Env W} `{!Timely W}.

(** One turn of the loop. *)
Lemma poll_step (st : St W) n r m d nm acquireTimeout e timer :
  points_to st r m -> db m = Some d ->
  let upd := takeover_query (owner m) nm (Owner e) false in
  let st_s := st_Sleep PollInterval (st_select timer st) in
  let st_t := st_turn d upd timer st in
  poll (S n) r nm acquireTimeout (Some e) timer st
  = if fst (timer_C timer (world st))
    then (Done (None, Some AcquireTimeoutErr), st_select timer st)
    else match takeover_answer nm (fst (db_Exec d upd (world st_s))) with
         | Some _ => poll n r nm acquireTimeout (Some e) timer st_t
         | None => (Done (Some (mkLock r nm acquireTimeout), None), st_t)
         end.
Proof.
  intros Hr Hd upd st_s st_t. cbn [poll].
  unfold bind at 1. unfold fired, call. unfold st_s, st_t, st_turn, st_select.
  destruct (timer_C timer (world st)) as [ready w']. cbn [fst snd].
  destruct ready; [reflexivity|].
  set (st' := mkSt w' (heap st) (trace st)).
  assert (Hr' : points_to st' r m) by (destruct r; exact Hr).
  unfold bind at 1. rewrite Sleep_run.
  unfold bind at 1. unfold entry_Owner, ret at 1. cbv beta iota.
  unfold bind at 1.
  rewrite (takeover_run (st_Sleep PollInterval st') r m d nm (Owner e) false
             (points_to_st_Sleep _ _ _ _ Hr') Hd).
  fold upd.
  destruct (takeover_answer nm
              (fst (db_Exec d upd (world (st_Sleep PollInterval st'))))); reflexivity.
Qed.

Lemma trace_st_turns d upd timer k : forall st : St W,
  trace (st_turns d upd timer k st) = (trace st ++ turns d upd k)%list.
Proof.
  induction k as [|k IH]; intros st; cbn [st_turns].
  - cbn. rewrite app_nil_r. reflexivity.
  - rewrite IH. unfold st_turn, st_Exec, st_Sleep, st_select. cbn [trace].
    rewrite <- !app_assoc. reflexivity.
Qed.

Lemma clock_st_turn d upd timer (st : St W) :
  clock (world st) + PollInterval <= clock (world (st_turn d upd timer st)).
Proof.
  unfold st_turn, st_Exec, st_Sleep, st_select. cbn [world].
  pose proof (clock_timer_C timer (world st)) as Hc.
  pose proof (clock_Sleep PollInterval (snd (timer_C timer (world st)))) as Hs.
  pose proof (clock_Exec d upd
                (time_Sleep PollInterval (snd (timer_C timer (world st))))) as Hx.
  assert (HPI : Z.max 0 PollInterval = PollInterval) by reflexivity.
  rewrite HPI in Hs. lia.
Qed.

(** A bound of two more than the number of poll intervals in [x] covers
    [x]. *)
Lemma fuel_covers (x : Z) (n : nat) :
  (Z.to_nat (x / PollInterval) + 2 <= S n)%nat -> x <= Z.of_nat n * PollInterval.
Proof.
  assert (HPI : PollInterval = 1000000000) by reflexivity.
  rewrite HPI. intros Hfuel.
  pose proof (Z.mod_pos_bound x 1000000000 eq_refl).
  pose proof (Z.div_mod x 1000000000 ltac:(lia)).
  destruct (Z_lt_le_dec x 0) as [Hneg|Hpos]; [lia|].
  assert (0 <= x / 1000000000) by (apply Z.div_pos; lia).
  lia.
Qed.

(** The whole run of the loop.  With a bound of one more than the number
    of poll intervals left before the timer is delivered for sure, the
    loop returns after some number [k] of turns: at each of them the
    [select] found nothing on the timer's channel, and either the takeover
    of turn [k] is the first to answer nil and the handle is returned, or
    all [k] takeovers answered an error, the [select] that followed found
    the timer's value and [AcquireTimeoutErr] is returned. *)
Lemma poll_run n : forall (st : St W) r m d nm acquireTimeout e timer,
  points_to st r m -> db m = Some d ->
  timer + timer_lag - clock (world st) <= Z.of_nat n * PollInterval ->
  let upd := takeover_query (owner m) nm (Owner e) false in
  let before i := st_turns d upd timer i st in
  let ready i := fst (timer_C timer (world (before i))) in
  let attempt i :=
    fst (takeover r nm (Owner e) false
           (st_Sleep PollInterval (st_select timer (before i)))) in
  exists k,
    (forall i, (i < k)%nat -> ready i = false)
    /\ (((0 < k)%nat
         /\ (forall i, (i + 1 < k)%nat -> exists err, attempt i = Done (Some err))
         /\ attempt (k - 1)%nat = Done None
         /\ poll (S n) r nm acquireTimeout (Some e) timer st
            = (Done (Some (mkLock r nm acquireTimeout), None), before k))
        \/ ((forall i, (i < k)%nat -> exists err, attempt i = Done (Some err))
            /\ ready k = true
            /\ poll (S n) r nm acquireTimeout (Some e) timer st
               = (Done (None, Some AcquireTimeoutErr), st_select timer (before k)))).
Proof.
  induction n as [|n IH]; intros st r m d nm acquireTimeout e timer Hr Hd Hleft upd
    before ready attempt;
    rewrite (poll_step st _ r m d nm acquireTimeout e timer Hr Hd); fold upd;
    destruct (fst (timer_C timer (world st))) eqn:Hready.
  - exists O. split; [intros i Hi; lia|]. right.
    split; [intros i Hi; lia|]. split; [exact Hready|reflexivity].
  - rewrite (timer_delivered timer (world st)) in Hready; [discriminate|].
    cbn in Hleft. lia.
  - exists O. split; [intros i Hi; lia|]. right.
    split; [intros i Hi; lia|]. split; [exact Hready|reflexivity].
  - set (st_s := st_Sleep PollInterval (st_select timer st)).
    set (st_t := st_turn d upd timer st).
    assert (Hrs : points_to st_s r m) by (destruct r; exact Hr).
    assert (Hatt : attempt O
                   = Done (takeover_answer nm (fst (db_Exec d upd (world st_s))))).
    { unfold attempt, before. cbn [st_turns]. fold st_s.
      rewrite (takeover_run st_s r m d nm (Owner e) false Hrs Hd). reflexivity. }
    destruct (takeover_answer nm (fst (db_Exec d upd (world st_s)))) as [err|].
    + assert (Hr' : points_to st_t r m) by (destruct r; exact Hr).
      assert (Hleft' : timer + timer_lag - clock (world st_t)
                       <= Z.of_nat n * PollInterval).
      { pose proof (clock_st_turn d upd timer st) as Hc. fold st_t in Hc. lia. }
      destruct (IH st_t r m d nm acquireTimeout e timer Hr' Hd Hleft')
        as (k & Hnot & Hres).
      exists (S k). split.
      { intros [|i] Hi; [exact Hready|]. apply (Hnot i). lia. }
      destruct Hres as [(Hk & Herrs & Hlast & Hrun)|(Herrs & Hfired & Hrun)].
      * left. split; [lia|]. split; [|split].
        -- intros [|i] Hi; [exists err; exact Hatt|]. apply (Herrs i). lia.
        -- destruct k as [|k']; [lia|].
           replace (S (S k') - 1)%nat with (S (S k' - 1)) by lia. exact Hlast.
        -- exact Hrun.
      * right. split; [|split].
        -- intros [|i] Hi; [exists err; exact Hatt|]. apply (Herrs i). lia.
        -- exact Hfired.
        -- exact Hrun.
    + exists 1%nat. split.
      { intros i Hi. assert (i = O) by lia. subst i. exact Hready. }
      left. split; [lia|]. split; [intros i Hi; lia|].
      split; [exact Hatt|reflexivity].
Qed.

(** C3. A [Lock] call that enters the poll loop (duplicate on insert, the
    record fetched in use and not stale) sets a timer for [acquireTimeout]
    and then makes turns: a look at the timer's channel, a sleep of
    [PollInterval], one guarded, not forced, takeover against the owner of
    the record fetched.  It returns after some number [k] of turns whose
    [select] found nothing on the channel, in one of two ways and no
    other.  Either [takeover] answered an error in each turn before the
    [k]-th and nil in the [k]-th, and the handle for the requested name
    and timeout is returned right then.  Or [takeover] answered an error
    in all [k] turns, whatever the error, the next [select] received the
    timer's value, so that the instant the timer was set for has been
    reached, and the sentinel [AcquireTimeoutErr] is returned.  The state
    reached and the calls made are those of the [k] turns.  Time is
    assumed [Timely]; a bound on the turns that suffices is the number of
    poll intervals in the timeout and the delivery lag, plus two. *)
Theorem Lock_poll_loop (st : St W) (fuel : nat) (r : ptr) (m : RLock) (d : DB)
    (nm : string) (acquireTimeout : Duration) (msg : string) (e : LockEntry) :
  points_to st r m -> db m = Some d ->
  let ins := INSERT [F_name nm; F_owner (owner m); F_in_use true] in
  let sel := SELECT_star [F_name nm] in
  let w1 := snd (db_Exec d ins (world st)) in
  let w2 := snd (db_Get_entry d sel w1) in
  let guarded :=
    UPDATE [F_owner (owner m); F_in_use true]
      [F_name nm; F_in_use false; F_owner (Owner e)] in
  let timer := clock w2 + Z.max 0 acquireTimeout in
  let before i :=
    st_turns d guarded timer i
      (mkSt w2 (heap st) (trace st ++ [EvExec d ins; EvGet d sel])%list) in
  let ready i := fst (timer_C timer (world (before i))) in
  let attempt i :=
    fst (takeover r nm (Owner e) false
           (st_Sleep PollInterval (st_select timer (before i)))) in
  fst (db_Exec d ins (world st)) = inr (MySQLError 1062 msg) ->
  fst (db_Get_entry d sel w1) = inl e ->
  InUse e = true -> clock w2 - LastUsed e <= MaxAge ->
  (Z.to_nat ((Z.max 0 acquireTimeout + timer_lag) / PollInterval) + 2 <= fuel)%nat ->
  exists k,
    trace (before k)
    = (trace st ++ [EvExec d ins; EvGet d sel] ++ turns d guarded k)%list
    /\ (forall i, (i < k)%nat -> ready i = false)
    /\ (((0 < k)%nat
         /\ (forall i, (i + 1 < k)%nat -> exists err, attempt i = Done (Some err))
         /\ attempt (k - 1)%nat = Done None
         /\ RLock_Lock fuel r nm acquireTimeout st
            = (Done (Some (mkLock r nm acquireTimeout), None), before k))
        \/ ((forall i, (i < k)%nat -> exists err, attempt i = Done (Some err))
            /\ ready k = true
            /\ RLock_Lock fuel r nm acquireTimeout st
               = (Done (None, Some AcquireTimeoutErr), st_select timer (before k))
            /\ timer <= clock (world (st_select timer (before k))))).
Proof.
  intros Hr Hd ins sel w1 w2 guarded timer before ready attempt
    Hins Hget Huse Hfresh Hfuel.
  assert (Hval : ~ (InUse e = false
                    \/ (InUse e = true /\ clock w2 - LastUsed e > MaxAge)))
    by (intros [Hx|[_ Hx]]; [congruence|lia]).
  rewrite (Lock_valid_run st fuel r m d nm acquireTimeout _ e
             Hr Hd Hins eq_refl Hget Hval).
  change (insert_query nm (owner m)) with ins. fold sel w1 w2 timer.
  destruct fuel as [|n]; [lia|].
  set (st2 := mkSt w2 (heap st) (trace st ++ [EvExec d ins; EvGet d sel])%list).
  assert (Hr2 : points_to st2 r m) by (destruct r; exact Hr).
  assert (Hleft : timer + timer_lag - clock (world st2) <= Z.of_nat n * PollInterval).
  { pose proof (fuel_covers _ n Hfuel) as Hcov. unfold timer. cbn [world st2]. lia. }
  destruct (poll_run n st2 r m d nm acquireTimeout e timer Hr2 Hd Hleft)
    as (k & Hnot & Hres).
  exists k. split; [|split; [exact Hnot|]].
  - unfold before. rewrite trace_st_turns. cbn [trace].
    rewrite <- app_assoc. reflexivity.
  - destruct Hres as [Hres|(Herrs & Hfired & Hrun)]; [left; exact Hres|].
    right. split; [exact Herrs|]. split; [exact Hfired|]. split; [exact Hrun|].
    unfold st_select. cbn [world]. apply timer_not_early. exact Hfired.
Qed.

End PollLoop.

(** ** Which errors [Lock] returns and which it retries *)

Section ErrorPolicy.
Context {W : Type} `{Env W}.

(** The only error the loop returns is the timeout. *)
Lemma poll_error_is_timeout n : forall (st st' : St W) r nm acquireTimeout existingLock
    timer l out,
  poll n r nm acquireTimeout existingLock timer st = (Done (l, Some out), st') ->
  l = None /\ out = AcquireTimeoutErr.
Proof.
  induction n as [|n IH]; intros st st' r nm acquireTimeout existingLock timer l out;
    cbn [poll]; [discriminate|].
  unfold bind at 1. unfold fired, call.
  destruct (timer_C timer (world st)) as [ready w'].
  destruct ready.
  { unfold ret. intros Heq. inversion Heq. auto. }
  unfold bind at 1. rewrite Sleep_run.
  unfold bind at 1.
  destruct (entry_Owner existingLock _) as [[o| |] st1]; try discriminate.
  unfold bind at 1.
  destruct (takeover r nm o false st1) as [[[err|]| |] st2]; try discriminate.
  apply IH.
Qed.

(** C6, as the code has it.  A failure of the insert that is not a
    duplicate, a failure of the fetch and a failure of the forced takeover
    are returned to the caller at once, no further call being made.  In
    the poll loop, the [select] having found nothing on the timer's
    channel, a failed guarded takeover is followed by the next turn
    whatever its error (guard mismatch, failure of the store or of the
    count, more than one row), so that the only error the loop returns
    is [AcquireTimeoutErr]. *)
Theorem Lock_error_policy (st : St W) (fuel : nat) (r : ptr) (m : RLock) (d : DB)
    (nm : string) (acquireTimeout : Duration) :
  points_to st r m -> db m = Some d ->
  let ins := INSERT [F_name nm; F_owner (owner m); F_in_use true] in
  let sel := SELECT_star [F_name nm] in
  let w1 := snd (db_Exec d ins (world st)) in
  let w2 := snd (db_Get_entry d sel w1) in
  let st1 := mkSt w1 (heap st) (trace st ++ [EvExec d ins])%list in
  let st2 := mkSt w2 (heap st) (trace st ++ [EvExec d ins; EvGet d sel])%list in
  (forall err,
      fst (db_Exec d ins (world st)) = inr err -> is_dupe err = false ->
      RLock_Lock fuel r nm acquireTimeout st
      = (Done (None, Some (errorString
                 ("unable to insert lock for '" ++ nm ++ "': " ++ Error err))), st1))
  /\ (forall msg err,
        fst (db_Exec d ins (world st)) = inr (MySQLError 1062 msg) ->
        fst (db_Get_entry d sel w1) = inr err ->
        exists out,
          RLock_Lock fuel r nm acquireTimeout st = (Done (None, Some out), st2))
  /\ (forall msg e err,
        fst (db_Exec d ins (world st)) = inr (MySQLError 1062 msg) ->
        fst (db_Get_entry d sel w1) = inl e ->
        InUse e = false \/ (InUse e = true /\ clock w2 - LastUsed e > MaxAge) ->
        fst (takeover r nm (Owner e) true st2) = Done (Some err) ->
        RLock_Lock fuel r nm acquireTimeout st
        = (Done (None, Some (errorString
                   ("unable to take over lock '" ++ nm ++ "': " ++ Error err))),
           snd (takeover r nm (Owner e) true st2)))
  /\ (forall n e timer err (stl : St W),
        points_to stl r m -> fst (timer_C timer (world stl)) = false ->
        let sts :=
          mkSt (time_Sleep PollInterval (snd (timer_C timer (world stl)))) (heap stl)
            (trace stl ++ [EvSleep PollInterval])%list in
        fst (takeover r nm (Owner e) false sts) = Done (Some err) ->
        poll (S n) r nm acquireTimeout (Some e) timer stl
        = poll n r nm acquireTimeout (Some e) timer
            (snd (takeover r nm (Owner e) false sts)))
  /\ (forall n existingLock timer (stl st' : St W) l out,
        poll n r nm acquireTimeout existingLock timer stl = (Done (l, Some out), st') ->
        l = None /\ out = AcquireTimeoutErr).
Proof.
  intros Hr Hd ins sel w1 w2 st1 st2.
  split; [|split; [|split; [|split]]].
  - intros err Hins Hnd.
    rewrite (Lock_insert_run st fuel r m d nm acquireTimeout Hr Hd).
    change (insert_query nm (owner m)) with ins. rewrite Hins, Hnd. reflexivity.
  - intros msg err Hins Hget.
    rewrite (Lock_fetch_run st fuel r m d nm acquireTimeout _ Hr Hd Hins eq_refl).
    change (insert_query nm (owner m)) with ins. fold sel.
    rewrite st_fetch_eq. fold w1 w2 st2.
    change (world (st_Exec d ins st)) with w1. rewrite Hget.
    destruct err; eexists; reflexivity.
  - intros msg e err Hins Hget Hinv Htk.
    destruct (Lock_invalid_run st fuel r m d nm acquireTimeout _ e
                Hr Hd Hins eq_refl Hget Hinv) as (Hrun & HLock).
    change (insert_query nm (owner m)) with ins in Hrun, HLock.
    fold sel w1 w2 st2 in Hrun, HLock.
    rewrite Hrun in Htk |- *. cbn [fst] in Htk. cbn [snd].
    rewrite HLock.
    destruct (takeover_answer nm _); [|discriminate].
    injection Htk as ->. reflexivity.
  - intros n e timer err stl Hrl Hnot sts Htk.
    rewrite (poll_step stl n r m d nm acquireTimeout e timer Hrl Hd).
    rewrite Hnot.
    change (st_Sleep PollInterval (st_select timer stl)) with sts.
    assert (Hrs : points_to sts r m) by (destruct r; exact Hrl).
    rewrite (takeover_run sts r m d nm (Owner e) false Hrs Hd) in Htk |- *.
    cbn [fst] in Htk. cbn [snd].
    destruct (takeover_answer nm _); [reflexivity|discriminate].
  - intros n existingLock timer stl st' l out. apply poll_error_is_timeout.
Qed.

End ErrorPolicy.

(** ** The manager and its handles *)

Section Manager.
Context {W : Type} `{Env W}.

Lemma UUID_String_not_empty (u : UUID) : UUID_String u <> "".
Proof.
  unfold UUID_String. destruct (hex_Encode (slice u 0 4)); discriminate.
Qed.

Lemma nth_error_snoc {A} (l : list A) (x : A) :
  nth_error (l ++ [x]) (List.length l) = Some x.
Proof. induction l as [|y l IH]; [reflexivity|exact IH]. Qed.

Lemma New_run (st : St W) (d : DB) :
  exists a m st',
    New (Some d) st = (Done (Some a, None), st')
    /\ heap st' = (heap st ++ [m])%list
    /\ nth_error (heap st') a = Some m
    /\ db m = Some d
    /\ owner m <> "".
Proof.
  assert (Halloc : forall id (st1 : St W),
    exists a m st',
      (r <- alloc (mkRLock (Some d) (UUID_String id));; ret (r, @None error)) st1
                    = (Done (Some a, None), st')
      /\ heap st' = (heap st1 ++ [m])%list /\ nth_error (heap st') a = Some m
      /\ db m = Some d /\ owner m <> "").
  { intros id st1. eexists _, _, _. split; [reflexivity|]. cbn.
    repeat split. - apply nth_error_snoc. - apply UUID_String_not_empty. }
  unfold New, generateUUID. unfold bind at 1. unfold bind at 1. unfold call at 1.
  destruct (uuid_NewV1 (world st)) as [[id|e1] w1]; [apply (Halloc id (mkSt w1 _ _))|].
  unfold bind at 1. unfold call at 1. cbn [world heap trace].
  destruct (uuid_NewV4 w1) as [[id|e4] w4]; [apply (Halloc id (mkSt w4 _ _))|].
  apply (Halloc _ (mkSt w4 _ _)).
Qed.

(** C9, with the message the code gives.  [New] on a nil store returns no
    manager and the error db cannot be nil, and leaves everything as it
    was.  On a store that is not nil it returns, with no error, a manager
    freshly allocated that holds that store and an owner token that is
    not empty. *)
Theorem New_contract (st : St W) :
  New None st = (Done (None, Some (errorString "db cannot be nil")), st)
  /\ forall d : DB,
      exists a m st',
        New (Some d) st = (Done (Some a, None), st')
        /\ heap st' = (heap st ++ [m])%list
        /\ nth_error (heap st') a = Some m
        /\ db m = Some d
        /\ owner m <> "".
Proof.
  split; [reflexivity|]. intros d. apply New_run.
Qed.

Lemma keeps_ret {A} (a : A) : keeps_heap (ret a : M W A).
Proof. intros st. reflexivity. Qed.

Lemma keeps_panic {A} msg : keeps_heap (@panic W A msg).
Proof. intros st. reflexivity. Qed.

Lemma keeps_bind {A B} (c : M W A) (k : A -> M W B) :
  keeps_heap c -> (forall a, keeps_heap (k a)) -> keeps_heap (bind c k).
Proof.
  intros Hc Hk st. unfold bind. specialize (Hc st).
  destruct (c st) as [[a|msg|] st1]; cbn [snd] in *;
    [rewrite Hk|idtac|idtac]; exact Hc.
Qed.

Lemma keeps_emit e : keeps_heap (emit e : M W unit).
Proof. intros st. reflexivity. Qed.

Lemma keeps_call {A} (f : W -> A * W) : keeps_heap (call f).
Proof. intros st. unfold call. destruct (f (world st)). reflexivity. Qed.

Lemma keeps_deref r : keeps_heap (deref r : M W RLock).
Proof.
  intros st. unfold deref. destruct r as [a|]; [|reflexivity].
  destruct (nth_error (heap st) a); reflexivity.
Qed.

Lemma keeps_Now : keeps_heap (Now : M W Time).
Proof. intros st. reflexivity. Qed.

Lemma keeps_out_of_fuel {A} : keeps_heap (@out_of_fuel W A).
Proof. intros st. reflexivity. Qed.

Create HintDb keeps.
#[local] Hint Resolve keeps_ret keeps_panic keeps_emit keeps_call keeps_deref keeps_Now
  keeps_out_of_fuel : keeps.

Ltac keeps :=
  repeat first
    [ apply keeps_bind; [|intros]
    | match goal with
      | |- keeps_heap (match ?x with _ => _ end) => destruct x
      | |- keeps_heap (if ?x then _ else _) => destruct x
      | |- keeps_heap (let (_, _) := ?x in _) => destruct x
      end
    | solve [auto with keeps] ].

Lemma keeps_Exec d q : keeps_heap (Exec d q).
Proof. unfold Exec. keeps. Qed.

Lemma keeps_Get_entry d q : keeps_heap (Get_entry d q).
Proof. unfold Get_entry. keeps. Qed.

Lemma keeps_Get_string d q : keeps_heap (Get_string d q).
Proof. unfold Get_string. keeps. Qed.

Lemma keeps_Sleep d : keeps_heap (Sleep d).
Proof. unfold Sleep. keeps. Qed.

#[local] Hint Resolve keeps_Exec keeps_Get_entry keeps_Get_string keeps_Sleep : keeps.

Lemma keeps_takeover r nm o force : keeps_heap (takeover r nm o force).
Proof. unfold takeover. keeps. Qed.

Lemma keeps_getExistingByName r nm : keeps_heap (getExistingByName r nm).
Proof. unfold getExistingByName. keeps. Qed.

Lemma keeps_isValid e nm t : keeps_heap (isValid e nm t).
Proof. unfold isValid, Since. keeps. Qed.

#[local] Hint Resolve keeps_takeover keeps_getExistingByName keeps_isValid : keeps.

Lemma keeps_poll fuel r nm t e timer : keeps_heap (poll fuel r nm t e timer).
Proof.
  induction fuel as [|n IH]; cbn [poll]; [auto with keeps|].
  unfold fired, entry_Owner. keeps.
Qed.

#[local] Hint Resolve keeps_poll : keeps.

Lemma keeps_Lock fuel r nm t : keeps_heap (RLock_Lock fuel r nm t).
Proof. unfold RLock_Lock, entry_Owner, NewTimer. keeps. Qed.

Lemma keeps_Unlock l err : keeps_heap (Lock_Unlock l err).
Proof. unfold Lock_Unlock, log_Error. keeps. Qed.

Lemma keeps_LastError l : keeps_heap (Lock_LastError l).
Proof. unfold Lock_LastError. keeps. Qed.

Lemma yields_ret {A} (P : A -> Prop) a : P a -> @yields W A P (ret a).
Proof. intros Ha st a' st' [= <- _]. exact Ha. Qed.

Lemma yields_bind {A B} (P : B -> Prop) (c : M W A) (k : A -> M W B) :
  (forall a, yields P (k a)) -> yields P (bind c k).
Proof.
  intros Hk st b st'. unfold bind.
  destruct (c st) as [[a|msg|] st1]; try discriminate. apply Hk.
Qed.

Lemma yields_panic {A} (P : A -> Prop) msg : @yields W A P (panic msg).
Proof. intros st a st'. discriminate. Qed.

Lemma yields_out_of_fuel {A} (P : A -> Prop) : @yields W A P out_of_fuel.
Proof. intros st a st'. discriminate. Qed.

Lemma handle_for_some r nm t err : handle_for r nm t (Some (mkLock r nm t), err).
Proof. intros l [= <-]. auto. Qed.

Lemma handle_for_none r nm t err : handle_for r nm t (None, err).
Proof. intros l. discriminate. Qed.

Ltac yields :=
  repeat first
    [ apply yields_bind; intros
    | apply yields_panic
    | apply yields_out_of_fuel
    | apply yields_ret; first [apply handle_for_some | apply handle_for_none]
    | match goal with
      | |- yields _ (match ?x with _ => _ end) => destruct x
      | |- yields _ (if ?x then _ else _) => destruct x
      | |- yields _ (let (_, _) := ?x in _) => destruct x
      end ].

Lemma poll_handle fuel r nm t e timer :
  yields (handle_for r nm t) (poll fuel r nm t e timer).
Proof.
  induction fuel as [|n IH]; cbn [poll]; yields. exact IH.
Qed.

Lemma Lock_handle fuel r nm t : yields (handle_for r nm t) (RLock_Lock fuel r nm t).
Proof. unfold RLock_Lock. yields. apply poll_handle. Qed.

(** C10. No operation writes to a manager: [Lock], [takeover],
    [getExistingByName], [Unlock] and [LastError] leave the heap of
    managers as they found it, however they end, and a later [New] only
    adds to it; so the owner token a manager got from [New] stays what it
    was.  Every handle returned by [Lock] holds the requested name, the
    requested timeout and the pointer to the manager it was called on. *)
Theorem manager_never_modified (st : St W) :
  (forall fuel r nm t, heap (snd (RLock_Lock fuel r nm t st)) = heap st)
  /\ (forall r nm o force, heap (snd (takeover r nm o force st)) = heap st)
  /\ (forall r nm, heap (snd (getExistingByName r nm st)) = heap st)
  /\ (forall l err, heap (snd (Lock_Unlock l err st)) = heap st)
  /\ (forall l, heap (snd (Lock_LastError l st)) = heap st)
  /\ (forall d a m,
        nth_error (heap st) a = Some m ->
        nth_error (heap (snd (New d st))) a = Some m)
  /\ (forall fuel r nm t l err st',
        RLock_Lock fuel r nm t st = (Done (Some l, err), st') ->
        rl l = r /\ name l = nm /\ timeout l = t).
Proof.
  split; [intros; apply keeps_Lock|].
  split; [intros; apply keeps_takeover|].
  split; [intros; apply keeps_getExistingByName|].
  split; [intros; apply keeps_Unlock|].
  split; [intros; apply keeps_LastError|].
  split.
  - intros d a m Ha.
    destruct d as [d|]; [|exact Ha].
    destruct (New_run st d) as (a' & m' & st' & Hnew & Hheap & _).
    rewrite Hnew. cbn [snd]. rewrite Hheap, nth_error_app1; [exact Ha|].
    apply nth_error_Some. congruence.
  - intros fuel r nm t l err st' Hrun.
    exact (Lock_handle fuel r nm t st _ st' Hrun l eq_refl).
Qed.

End Manager.

(** ** The handoff channel, on the table in memory *)

Section Handoff.
Import MemStore.

(** Rows that do not bear the name [nm] are out of reach of a statement
    whose [WHERE] list asks for it. *)
Lemma absent_where nm conds r :
  String.eqb (Name r) nm = false -> where_holds (F_name nm :: conds) r = false.
Proof. intros Hn. unfold where_holds. cbn [forallb holds]. rewrite Hn. reflexivity. Qed.

Lemma absent_filter nm conds rows :
  name_taken nm rows = false -> filter (where_holds (F_name nm :: conds)) rows = [].
Proof.
  induction rows as [|r rows IH]; [reflexivity|].
  cbn [name_taken existsb]. intros Hn. apply orb_false_elim in Hn as [Hr Hrest].
  cbn [filter]. rewrite (absent_where nm conds r Hr). exact (IH Hrest).
Qed.

Lemma absent_map nm conds (f : LockEntry -> LockEntry) rows :
  name_taken nm rows = false ->
  map (fun r => if where_holds (F_name nm :: conds) r then f r else r) rows = rows.
Proof.
  induction rows as [|r rows IH]; [reflexivity|].
  cbn [name_taken existsb]. intros Hn. apply orb_false_elim in Hn as [Hr Hrest].
  cbn [map]. rewrite (absent_where nm conds r Hr). f_equal. exact (IH Hrest).
Qed.

Lemma absent_find nm conds pre rest :
  name_taken nm pre = false ->
  find (where_holds (F_name nm :: conds)) (pre ++ rest)
  = find (where_holds (F_name nm :: conds)) rest.
Proof.
  induction pre as [|r pre IH]; [reflexivity|].
  cbn [name_taken existsb]. intros Hn. apply orb_false_elim in Hn as [Hr Hrest].
  cbn [app find]. rewrite (absent_where nm conds r Hr). exact (IH Hrest).
Qed.

(** An update that asks for the name [nm] and selects the one row of
    that name changes that row and reports one row affected. *)
Lemma update_the_row t id set nm conds pre row post :
  name_taken nm pre = false -> name_taken nm post = false ->
  where_holds (F_name nm :: conds) row = true ->
  run_stmt t id (UPDATE set (F_name nm :: conds)) (pre ++ row :: post)
  = (inl 1, (pre ++ touch t (apply_set set row) :: post)%list).
Proof.
  intros Hpre Hpost Hrow. cbn [run_stmt].
  rewrite filter_app, map_app. cbn [filter map]. rewrite Hrow.
  rewrite !(absent_filter nm conds) by assumption.
  rewrite !(absent_map nm conds) by assumption. reflexivity.
Qed.

Lemma find_the_row nm conds pre row post :
  name_taken nm pre = false ->
  where_holds (F_name nm :: conds) row = true ->
  find (where_holds (F_name nm :: conds)) (pre ++ row :: post) = Some row.
Proof.
  intros Hpre Hrow. rewrite (absent_find nm conds pre _ Hpre).
  cbn [find]. rewrite Hrow. reflexivity.
Qed.

Lemma name_taken_the_row nm pre row post :
  Name row = nm -> name_taken nm (pre ++ row :: post) = true.
Proof.
  intros <-. unfold name_taken. rewrite existsb_app. cbn [existsb].
  rewrite String.eqb_refl, orb_true_r. reflexivity.
Qed.

Lemma LastError_run {W} `{Env W} (st : St W) l m d :
  points_to st (rl l) m -> db m = Some d ->
  let q := last_error_query (name l) (owner m) in
  Lock_LastError l st
  = (Done match fst (db_Get_string d q (world st)) with
          | inr err =>
              Some (errorString
                ("unexpected error while fetching last error state: " ++ Error err))
          | inl lastError =>
              if String.eqb lastError "" then None else Some (errorString lastError)
          end,
     st_Get_string d q st).
Proof.
  intros Hr Hd q. unfold Lock_LastError, bind.
  rewrite (deref_run _ _ _ Hr), Hd, Get_string_run. fold q.
  destruct (fst (db_Get_string d q (world st))) as [s|err]; [|reflexivity].
  destruct (String.eqb s ""); reflexivity.
Qed.

Lemma Unlock_run {W} `{Env W} (st : St W) l m d lastError res :
  points_to st (rl l) m -> db m = Some d ->
  let msg := match lastError with None => "" | Some e => Error e end in
  let q := unlock_query msg (name l) (owner m) in
  fst (db_Exec d q (world st)) = inl res -> RowsAffected res = inl 1 ->
  Lock_Unlock l lastError st = (Done None, st_Exec d q st).
Proof.
  intros Hr Hd msg q Hres Hn. unfold Lock_Unlock, bind.
  rewrite (deref_run _ _ _ Hr), Hd, Exec_run. fold msg q.
  rewrite Hres, Hn. reflexivity.
Qed.

(** C5, as the code has it.  The table holds one row for the name, owned
    by the holder, and the store meets no fault.  The holder calls
    [Unlock(E)]; then a manager calls [Lock] for the same name and gets a
    handle at once; then [LastError] on that handle returns nil when [E]
    is nil, an error whose message is that of [E] when [E] has a message
    that is not empty, and nil when the message of [E] is empty.  On any
    state, a failure of the store during the read of [LastError] is
    returned as an error, not as nil. *)
Theorem handoff_round_trip (pre post : list LockEntry) (row : LockEntry) (t : Time)
    (nid : Z) (oth : list (Time * Stmt)) (uuids : list UUID) (hp : list RLock)
    (tr : list Event) (a b : nat) (ma mb : RLock) (da db' : DB)
    (tmo tmo' : Duration) (fuel : nat) (E : option error) :
  let nm := Name row in
  let st := mkSt (mkMem (pre ++ row :: post) t nid [] oth uuids) hp tr in
  nth_error hp a = Some ma -> db ma = Some da ->
  nth_error hp b = Some mb -> db mb = Some db' ->
  name_taken nm pre = false -> name_taken nm post = false ->
  Owner row = owner ma ->
  (exists st1 l st2 res st3,
      Lock_Unlock (mkLock (Some a) nm tmo) E st = (Done None, st1)
      /\ RLock_Lock fuel (Some b) nm tmo' st1 = (Done (Some l, None), st2)
      /\ Lock_LastError l st2 = (Done res, st3)
      /\ (E = None -> res = None)
      /\ (forall e, E = Some e -> Error e <> "" ->
            exists e', res = Some e' /\ Error e' = Error e)
      /\ (forall e, E = Some e -> Error e = "" -> res = None))
  /\ (forall (stx : St Mem) lx mx dx e,
        points_to stx (rl lx) mx -> db mx = Some dx ->
        fst (mem_Get_string dx
               (SELECT_last_error [F_name (name lx); F_owner (owner mx)]) (world stx))
        = inr e ->
        fst (Lock_LastError lx stx)
        = Done (Some (errorString
                  ("unexpected error while fetching last error state: " ++ Error e)))).
Proof.
  intros nm st Ha Hda Hb Hdb Hpre Hpost Hown.
  split.
  2:{ intros stx lx mx dx e Hr Hd Hget.
      rewrite (LastError_run stx lx mx dx Hr Hd). cbn [fst].
      change (fst (db_Get_string dx (last_error_query (name lx) (owner mx)) (world stx)))
        with (fst (mem_Get_string dx
               (SELECT_last_error [F_name (name lx); F_owner (owner mx)]) (world stx))).
      rewrite Hget. reflexivity. }
  set (msg := match E with None => "" | Some e => Error e end).
  (* the release *)
  set (row1 := touch t (apply_set [F_in_use false; F_last_error msg] row)).
  set (w1 := mkMem (pre ++ row1 :: post) t (nid + 1) [] oth uuids).
  assert (Hrow : where_holds [F_name nm; F_owner (owner ma)] row = true).
  { unfold where_holds. cbn [forallb holds]. unfold nm. rewrite Hown.
    rewrite !String.eqb_refl. reflexivity. }
  assert (Hunlock : mem_Exec da (unlock_query msg nm (owner ma)) (world st)
                    = (inl (mkResult (inl 1)), w1)).
  { unfold mem_Exec, unlock_query, st. cbn [world next_fault faults fst snd now next_id table].
    cbv beta iota.
    rewrite (update_the_row t nid _ nm _ pre row post Hpre Hpost Hrow).
    reflexivity. }
  set (st1 := mkSt w1 hp (tr ++ [EvExec da (unlock_query msg nm (owner ma))])%list).
  assert (Hrel : Lock_Unlock (mkLock (Some a) nm tmo) E st = (Done None, st1)).
  { rewrite (Unlock_run st (mkLock (Some a) nm tmo) ma da E (mkResult (inl 1)) Ha Hda).
    - unfold st_Exec. cbn [rl name]. fold msg.
      change (db_Exec da (unlock_query msg nm (owner ma)) (world st))
        with (mem_Exec da (unlock_query msg nm (owner ma)) (world st)).
      rewrite Hunlock. reflexivity.
    - cbn [rl name]. fold msg.
      change (db_Exec da (unlock_query msg nm (owner ma)) (world st))
        with (mem_Exec da (unlock_query msg nm (owner ma)) (world st)).
      rewrite Hunlock. reflexivity.
    - reflexivity. }
  (* the next acquisition: duplicate, fetch, forced takeover *)
  set (ins := insert_query nm (owner mb)).
  set (sel := SELECT_star [F_name nm]).
  set (w1' := mkMem (pre ++ row1 :: post) t (nid + 1 + 1) [] oth uuids).
  assert (Hins : fst (db_Exec db' ins (world st1))
                 = inr (MySQLError 1062
                          ("Duplicate entry '" ++ nm ++ "' for key 'name'"))
                 /\ snd (db_Exec db' ins (world st1)) = w1').
  { change (db_Exec db' ins (world st1)) with (mem_Exec db' ins w1).
    unfold mem_Exec, ins, insert_query, w1.
    cbn [world next_fault faults fst snd now next_id table run_stmt].
    cbv beta iota.
    change (Name (apply_set [F_name nm; F_owner (owner mb); F_in_use true]
                    (blank_row (nid + 1) t))) with nm.
    rewrite (name_taken_the_row nm pre row1 post eq_refl).
    split; reflexivity. }
  destruct Hins as [Hins Hw1'].
  assert (Hget : db_Get_entry db' sel w1' = (inl row1, w1')).
  { change (db_Get_entry db' sel w1') with (mem_Get_entry db' sel w1').
    unfold mem_Get_entry, sel, w1'.
    cbn [next_fault faults fst snd table]. cbv beta iota.
    rewrite (find_the_row nm [] pre row1 post Hpre); [reflexivity|].
    unfold where_holds. cbn [forallb holds]. change (Name row1) with nm.
    rewrite String.eqb_refl. reflexivity. }
  set (forced := takeover_query (owner mb) nm (Owner row1) true).
  set (row2 := touch t (apply_set [F_owner (owner mb); F_in_use true] row1)).
  set (w2 := mkMem (pre ++ row2 :: post) t (nid + 1 + 1 + 1) [] oth uuids).
  assert (Hforced : db_Exec db' forced w1' = (inl (mkResult (inl 1)), w2)).
  { change (db_Exec db' forced w1') with (mem_Exec db' forced w1').
    unfold mem_Exec, forced, takeover_query, takeover_where, w1'.
    cbn [next_fault faults fst snd now next_id table]. cbv beta iota.
    rewrite (update_the_row t _ _ nm _ pre row1 post Hpre Hpost); [reflexivity|].
    unfold where_holds. cbn [forallb holds]. change (Name row1) with nm.
    rewrite !String.eqb_refl. reflexivity. }
  assert (Hb1 : points_to st1 (Some b) mb) by exact Hb.
  destruct (Lock_invalid_run st1 fuel (Some b) mb db' nm tmo' _ row1
              Hb1 Hdb Hins eq_refl) as (_ & HLock).
  { fold ins. rewrite Hw1'. fold sel. rewrite Hget. reflexivity. }
  { left. reflexivity. }
  fold ins sel forced in HLock. rewrite Hw1', Hget in HLock. cbn [snd] in HLock.
  rewrite Hforced in HLock. cbn [fst takeover_answer RowsAffected] in HLock.
  change (1 <? 1) with false in HLock. change (1 =? 0) with false in HLock.
  cbv iota in HLock.
  set (st2 := st_Exec db' forced
                (mkSt w1' (heap st1)
                   (trace st1 ++ [EvExec db' ins; EvGet db' sel])%list)) in HLock.
  (* the query of the outcome *)
  set (l := mkLock (Some b) nm tmo') in HLock.
  assert (Hb2 : points_to st2 (rl l) mb) by exact Hb.
  pose proof (LastError_run st2 l mb db' Hb2 Hdb) as Hlast.
  assert (Hread : db_Get_string db' (last_error_query (name l) (owner mb)) (world st2)
                  = (inl msg, w2)).
  { unfold st2, st_Exec. cbn [world]. rewrite Hforced. cbn [snd name l].
    change (db_Get_string db' (last_error_query nm (owner mb)) w2)
      with (mem_Get_string db' (last_error_query nm (owner mb)) w2).
    unfold mem_Get_string, last_error_query, w2.
    cbn [next_fault faults fst snd table]. cbv beta iota.
    rewrite (find_the_row nm _ pre row2 post Hpre); [reflexivity|].
    unfold where_holds. cbn [forallb holds].
    change (Name row2) with nm. change (Owner row2) with (owner mb).
    rewrite !String.eqb_refl. reflexivity. }
  cbv zeta in Hlast. rewrite Hread in Hlast. cbn [fst] in Hlast.
  eexists st1, l, st2, _, _.
  split; [exact Hrel|]. split; [exact HLock|]. split; [exact Hlast|].
  split; [|split].
  - intros ->. reflexivity.
  - intros e -> Hne. subst msg. apply String.eqb_neq in Hne. rewrite Hne.
    exists (errorString (Error e)). split; reflexivity.
  - intros e -> He. subst msg. rewrite He. reflexivity.
Qed.

End Handoff.

(** ** The theorems at work on the table in memory *)

Example nsUUID_String : UUID_String nsUUID = "3cd4853f-ad8f-40f9-8558-014dd707b7b4".
Proof. reflexivity. Qed.

(** [alice] holds job-17 and releases it after a second and a half; [bob],
    who asked with a timeout of five seconds, gets the handle at his second
    turn, and finds [alice]'s message. *)
Example Lock_waits_for_release :
  let release := unlock_query "disk full" "job-17" "A" in
  let w := MemStore.mkMem [held 0] 5 1 [] [(3 * Second / 2, release)] [] in
  let acquired := RLock_Lock 7 (Some 1%nat) "job-17" (5 * Second) (two_managers w) in
  let guarded :=
    UPDATE [F_owner "B"; F_in_use true]
      [F_name "job-17"; F_in_use false; F_owner "A"] in
  fst acquired = Done (Some (mkLock (Some 1%nat) "job-17" (5 * Second)), None)
  /\ trace (snd acquired)
     = [EvExec 0%nat (INSERT [F_name "job-17"; F_owner "B"; F_in_use true]);
        EvGet 0%nat (SELECT_star [F_name "job-17"]);
        EvSleep PollInterval; EvExec 0%nat guarded;
        EvSleep PollInterval; EvExec 0%nat guarded]
  /\ fst (Lock_LastError (mkLock (Some 1%nat) "job-17" (5 * Second)) (snd acquired))
     = Done (Some (errorString "disk full")).
Proof. repeat split. Qed.

(** A timeout of zero under a runtime that delivers a timer a microsecond
    late: the first [select] finds nothing on the channel, so [bob] sleeps
    a whole [PollInterval] and makes one attempt before getting
    [AcquireTimeoutErr]. *)
Example Lock_zero_timeout_late_timer :
  let st := two_managers (MemStore.quiet [held 0] 5) in
  let acquired :=
    @RLock_Lock _ (MemStore.slow_env 1000 0) 3 (Some 1%nat) "job-17" 0 st in
  fst acquired = Done (None, Some AcquireTimeoutErr)
  /\ trace (snd acquired)
     = [EvExec 0%nat (INSERT [F_name "job-17"; F_owner "B"; F_in_use true]);
        EvGet 0%nat (SELECT_star [F_name "job-17"]);
        EvSleep PollInterval;
        EvExec 0%nat (UPDATE [F_owner "B"; F_in_use true]
                        [F_name "job-17"; F_in_use false; F_owner "A"])].
Proof. split; reflexivity. Qed.

(** A timeout of one nanosecond under a runtime that takes a microsecond
    to reach the [select]: the timer's value is there at the first look,
    and [bob] gets [AcquireTimeoutErr] without an attempt. *)
Example Lock_short_timeout_no_attempt :
  let st := two_managers (MemStore.quiet [held 0] 5) in
  let acquired :=
    @RLock_Lock _ (MemStore.slow_env 0 1000) 3 (Some 1%nat) "job-17" 1 st in
  fst acquired = Done (None, Some AcquireTimeoutErr)
  /\ trace (snd acquired)
     = [EvExec 0%nat (INSERT [F_name "job-17"; F_owner "B"; F_in_use true]);
        EvGet 0%nat (SELECT_star [F_name "job-17"])].
Proof. split; reflexivity. Qed.

(** The fast path: no row for job-17; [bob]'s insert succeeds and the
    insert is all that [Lock] does, even with no turn of the loop allowed. *)
Lemma Lock_fast_path_witness :
  let st := two_managers (MemStore.quiet [] 0) in
  let ins := INSERT [F_name "job-17"; F_owner "B"; F_in_use true] in
  points_to st (Some 1%nat) bob /\ db bob = Some 0%nat
  /\ fst (db_Exec 0%nat ins (world st)) = inl (mkResult (inl 1))
  /\ exists l, fst (RLock_Lock 0 (Some 1%nat) "job-17" (5 * Second) st) = Done (Some l, None)
               /\ trace (snd (RLock_Lock 0 (Some 1%nat) "job-17" (5 * Second) st))
                  = [EvExec 0%nat ins].
Proof.
  intros st ins.
  destruct (@Lock_fast_path _ MemStore.env st 0 (Some 1%nat) bob 0%nat "job-17" (5 * Second)
              (mkResult (inl 1)) eq_refl eq_refl eq_refl)
    as (l & st' & Hrun & _ & _ & _ & _ & _ & Htr).
  split; [reflexivity|]. split; [reflexivity|]. split; [reflexivity|].
  exists l. rewrite Hrun. split; [reflexivity|exact Htr].
Defined.

(** The vanished record: the insert meets [alice]'s row, and the fetch
    then reports no rows. *)
Lemma Lock_record_vanished_witness :
  let w := MemStore.mkMem [held 0] 5 1
             [MemStore.NoFault; MemStore.CallFails sql_ErrNoRows] [] [] in
  let st := two_managers w in
  let ins := INSERT [F_name "job-17"; F_owner "B"; F_in_use true] in
  let sel := SELECT_star [F_name "job-17"] in
  points_to st (Some 1%nat) bob /\ db bob = Some 0%nat
  /\ fst (db_Exec 0%nat ins (world st))
     = inr (MySQLError 1062 "Duplicate entry 'job-17' for key 'name'")
  /\ fst (db_Get_entry 0%nat sel (snd (db_Exec 0%nat ins (world st)))) = inr sql_ErrNoRows
  /\ fst (RLock_Lock 3 (Some 1%nat) "job-17" (5 * Second) st)
     = Done (None, Some (errorString "lock no longer exists")).
Proof.
  intros w st ins sel.
  destruct (@Lock_record_vanished _ MemStore.env st 3 (Some 1%nat) bob 0%nat "job-17" (5 * Second)
              "Duplicate entry 'job-17' for key 'name'" sql_ErrNoRows
              eq_refl eq_refl eq_refl eq_refl)
    as (out & st' & Hrun & _ & _ & _ & Hgone & _).
  split; [reflexivity|]. split; [reflexivity|]. split; [reflexivity|].
  split; [reflexivity|].
  rewrite Hrun, (Hgone eq_refl). reflexivity.
Defined.

(** Contention on a stale record: [alice] has held job-17 untouched for two
    hours; [bob] finds the record stale, forces the takeover and gets the
    handle, with no turn of the loop allowed. *)
Lemma Lock_contention_witness :
  let st := two_managers (MemStore.quiet [held 0] (2 * Hour)) in
  let ins := INSERT [F_name "job-17"; F_owner "B"; F_in_use true] in
  let sel := SELECT_star [F_name "job-17"] in
  let w2 := snd (db_Get_entry 0%nat sel (snd (db_Exec 0%nat ins (world st)))) in
  points_to st (Some 1%nat) bob /\ db bob = Some 0%nat
  /\ fst (db_Exec 0%nat ins (world st))
     = inr (MySQLError 1062 "Duplicate entry 'job-17' for key 'name'")
  /\ fst (db_Get_entry 0%nat sel (snd (db_Exec 0%nat ins (world st)))) = inl (held 0)
  /\ (InUse (held 0) = true /\ clock w2 - LastUsed (held 0) > MaxAge)
  /\ fst (RLock_Lock 0 (Some 1%nat) "job-17" (5 * Second) st)
     = Done (Some (mkLock (Some 1%nat) "job-17" (5 * Second)), None).
Proof.
  intros st ins sel w2.
  assert (Hstale : InUse (held 0) = true /\ clock w2 - LastUsed (held 0) > MaxAge)
    by (split; reflexivity).
  destruct (@Lock_contention _ MemStore.env st 0 (Some 1%nat) bob 0%nat "job-17" (5 * Second)
              "Duplicate entry 'job-17' for key 'name'" (held 0)
              eq_refl eq_refl eq_refl eq_refl)
    as (_ & _ & Hforced & _).
  destruct (Hforced (or_intror Hstale)) as (ans & st3 & Htk & _ & Hrun).
  split; [reflexivity|]. split; [reflexivity|]. split; [reflexivity|].
  split; [reflexivity|]. split; [exact Hstale|].
  rewrite Hrun. cbn [fst].
  vm_compute in Htk. injection Htk as <- _. reflexivity.
Defined.

(** The poll loop: [alice] holds job-17 and keeps it; [bob] asks with a
    timeout of two seconds and, after two turns, gets [AcquireTimeoutErr]. *)
Lemma Lock_poll_loop_witness :
  let st := two_managers (MemStore.quiet [held 0] 5) in
  let ins := INSERT [F_name "job-17"; F_owner "B"; F_in_use true] in
  let sel := SELECT_star [F_name "job-17"] in
  let w2 := snd (db_Get_entry 0%nat sel (snd (db_Exec 0%nat ins (world st)))) in
  Timely MemStore.Mem
  /\ points_to st (Some 1%nat) bob /\ db bob = Some 0%nat
  /\ fst (db_Exec 0%nat ins (world st))
     = inr (MySQLError 1062 "Duplicate entry 'job-17' for key 'name'")
  /\ fst (db_Get_entry 0%nat sel (snd (db_Exec 0%nat ins (world st)))) = inl (held 0)
  /\ InUse (held 0) = true /\ clock w2 - LastUsed (held 0) <= MaxAge
  /\ (Z.to_nat ((Z.max 0 (2 * Second) + @timer_lag _ MemStore.env) / PollInterval) + 2
      <= 4)%nat
  /\ fst (RLock_Lock 4 (Some 1%nat) "job-17" (2 * Second) st)
     = Done (None, Some AcquireTimeoutErr).
Proof.
  intros st ins sel w2.
  assert (Hfresh : clock w2 - LastUsed (held 0) <= MaxAge) by discriminate.
  assert (Hfuel : (Z.to_nat ((Z.max 0 (2 * Second) + @timer_lag _ MemStore.env)
                             / PollInterval) + 2 <= 4)%nat)
    by (vm_compute; repeat constructor).
  destruct (@Lock_poll_loop _ MemStore.env mem_timely st 4 (Some 1%nat) bob 0%nat "job-17" (2 * Second)
              "Duplicate entry 'job-17' for key 'name'" (held 0)
              eq_refl eq_refl eq_refl eq_refl eq_refl Hfresh Hfuel)
    as (k & _ & _ & [(_ & _ & _ & Hrun)|(_ & _ & Hrun & _)]).
  - exfalso. apply (f_equal fst) in Hrun. vm_compute in Hrun. discriminate Hrun.
  - split; [exact mem_timely|].
    split; [reflexivity|]. split; [reflexivity|]. split; [reflexivity|].
    split; [reflexivity|]. split; [reflexivity|]. split; [exact Hfresh|].
    split; [exact Hfuel|]. rewrite Hrun. reflexivity.
Defined.

(** The round trip of the handoff: [alice] releases job-17 with the message boom;
    [bob] then acquires it and reads an error with that message. *)
Lemma handoff_round_trip_witness :
  let st := two_managers (MemStore.quiet [held 0] 5) in
  nth_error [alice; bob] 0 = Some alice /\ db alice = Some 0%nat
  /\ nth_error [alice; bob] 1 = Some bob /\ db bob = Some 0%nat
  /\ MemStore.name_taken "job-17" [] = false
  /\ Owner (held 0) = owner alice
  /\ exists st1 l st2 e',
      Lock_Unlock (mkLock (Some 0%nat) "job-17" Second) (Some (errorString "boom")) st
      = (Done None, st1)
      /\ RLock_Lock 0 (Some 1%nat) "job-17" Second st1 = (Done (Some l, None), st2)
      /\ fst (Lock_LastError l st2) = Done (Some e')
      /\ Error e' = "boom".
Proof.
  intros st.
  destruct (handoff_round_trip [] [] (held 0) 5 1 [] [nsUUID] [alice; bob] []
              0%nat 1%nat alice bob 0%nat 0%nat Second Second 0%nat
              (Some (errorString "boom"))
              eq_refl eq_refl eq_refl eq_refl eq_refl eq_refl eq_refl)
    as ((st1 & l & st2 & res & st3 & Hrel & Hacq & Hlast & _ & Hmsg & _) & _).
  destruct (Hmsg (errorString "boom") eq_refl) as (e' & Hres & He').
  { discriminate. }
  repeat (split; [reflexivity|]).
  exists st1, l, st2, e'.
  split; [exact Hrel|]. split; [exact Hacq|]. split; [|exact He'].
  rewrite Hlast, Hres. reflexivity.
Defined.

(** C5 as stated fails for an error whose message is empty: [alice]
    releases job-17 with such an error, [bob] acquires the lock, and his
    [LastError] is nil, not an error with the message of [alice]'s. *)
Lemma handoff_empty_message_lost :
  let st := two_managers (MemStore.quiet [held 0] 5) in
  let E := errorString "" in
  let released_ := Lock_Unlock (mkLock (Some 0%nat) "job-17" Second) (Some E) st in
  let acquired := RLock_Lock 0 (Some 1%nat) "job-17" Second (snd released_) in
  let l := mkLock (Some 1%nat) "job-17" Second in
  fst released_ = Done None
  /\ fst acquired = Done (Some l, None)
  /\ fst (Lock_LastError l (snd acquired)) = Done None
  /\ ~ (exists e', fst (Lock_LastError l (snd acquired)) = Done (Some e')
                   /\ Error e' = Error E).
Proof.
  intros st E released_ acquired l.
  split; [reflexivity|]. split; [reflexivity|]. split; [reflexivity|].
  intros (e' & Hlast & _). vm_compute in Hlast. discriminate Hlast.
Qed.

(** The error policy: the insert fails with an error that is not a
    duplicate, and [Lock] returns it, wrapped, having made that one call. *)
Lemma Lock_error_policy_witness :
  let w := MemStore.mkMem [] 5 1
             [MemStore.CallFails (errorString "connection refused")] [] [] in
  let st := two_managers w in
  points_to st (Some 1%nat) bob /\ db bob = Some 0%nat
  /\ RLock_Lock 3 (Some 1%nat) "job-17" (2 * Second) st
     = (Done (None, Some (errorString
                "unable to insert lock for 'job-17': connection refused")),
        mkSt (MemStore.mkMem [] 5 1 [] [] []) [alice; bob]
          [EvExec 0%nat (INSERT [F_name "job-17"; F_owner "B"; F_in_use true])]).
Proof.
  intros w st.
  destruct (@Lock_error_policy _ MemStore.env st 3 (Some 1%nat) bob 0%nat "job-17"
              (2 * Second) eq_refl eq_refl) as (Hins & _).
  split; [reflexivity|]. split; [reflexivity|].
  exact (Hins (errorString "connection refused") eq_refl eq_refl).
Defined.

(** C6 as stated fails in the poll loop: [alice] holds job-17, the first
    guarded takeover of [bob]'s loop meets a failure of the store, and
    [Lock], instead of returning it, sleeps, tries once more and ends with
    [AcquireTimeoutErr]. *)
Lemma Lock_loop_store_failure_retried :
  let w := MemStore.mkMem [held 0] 5 1
             [MemStore.NoFault; MemStore.NoFault;
              MemStore.CallFails (errorString "connection reset")] [] [] in
  let st := two_managers w in
  let ins := INSERT [F_name "job-17"; F_owner "B"; F_in_use true] in
  let sel := SELECT_star [F_name "job-17"] in
  let guarded :=
    UPDATE [F_owner "B"; F_in_use true]
      [F_name "job-17"; F_in_use false; F_owner "A"] in
  let st_loop := st_Sleep PollInterval (st_Get_entry 0%nat sel (st_Exec 0%nat ins st)) in
  fst (db_Exec 0%nat guarded (world st_loop)) = inr (errorString "connection reset")
  /\ fst (RLock_Lock 4 (Some 1%nat) "job-17" (2 * Second) st)
     = Done (None, Some AcquireTimeoutErr)
  /\ trace (snd (RLock_Lock 4 (Some 1%nat) "job-17" (2 * Second) st))
     = [EvExec 0%nat ins; EvGet 0%nat sel;
        EvSleep PollInterval; EvExec 0%nat guarded;
        EvSleep PollInterval; EvExec 0%nat guarded].
Proof.
  intros w st ins sel guarded st_loop.
  split; [reflexivity|]. split; reflexivity.
Qed.

(** C9 as stated fails on the text of the error: on a nil store [New]
    does not answer store cannot be nil. *)
Lemma New_nil_message :
  ~ (exists e,
        fst (New None (two_managers (MemStore.quiet [] 0))) = Done (None, Some e)
        /\ Error e = "store cannot be nil").
Proof.
  intros (e & Hnew & He). cbn in Hnew. injection Hnew as <-. discriminate He.
Qed.

(** ** Further properties of the functions, on any environment *)

Section Functions.
Context {W : Type} `{Env W}.

(** X1. [generateUUID] always gives an identifier: the one of [NewV1] when
    that succeeds ([NewV4] is then not consulted), else the one of [NewV4],
    else the name-based one made from [nsUUID] and the printed current
    time.  It makes no call to the store and leaves the managers alone. *)
Theorem generateUUID_fallback (st : St W) :
  let v1 := uuid_NewV1 (world st) in
  let v4 := uuid_NewV4 (snd v1) in
  exists id w',
    generateUUID st = (Done id, mkSt w' (heap st) (trace st))
    /\ (forall u, fst v1 = inl u -> id = u /\ w' = snd v1)
    /\ (forall e1 u, fst v1 = inr e1 -> fst v4 = inl u -> id = u /\ w' = snd v4)
    /\ (forall e1 e4, fst v1 = inr e1 -> fst v4 = inr e4 ->
          id = uuid_NewV5 nsUUID (time_String (clock (snd v4))) /\ w' = snd v4).
Proof.
  intros v1 v4. unfold generateUUID. unfold bind at 1. unfold call at 1.
  subst v4 v1.
  destruct (uuid_NewV1 (world st)) as [[u|e1] w1]; cbn [fst snd].
  - eexists _, _. split; [reflexivity|].
    repeat split; intros; try discriminate; congruence.
  - unfold bind at 1. unfold call at 1. cbn [world heap trace].
    destruct (uuid_NewV4 w1) as [[u|e4] w4]; cbn [fst snd].
    + eexists _, _. split; [reflexivity|].
      repeat split; intros; try discriminate; congruence.
    + eexists _, _. split; [reflexivity|].
      repeat split; intros; try discriminate; reflexivity.
Qed.

(** X2. [getExistingByName] makes one fetch by name and answers with
    exactly one of a record and an error: the record fetched; or
    [KeyNotFoundErr] when the store reports no rows; or, as it is, any
    other error of the store. *)
Theorem getExistingByName_contract (st : St W) (r : ptr) (m : RLock) (d : DB)
    (nm : string) :
  points_to st r m -> db m = Some d ->
  let sel := SELECT_star [F_name nm] in
  let got := db_Get_entry d sel (world st) in
  exists rec err,
    getExistingByName r nm st
    = (Done (rec, err), mkSt (snd got) (heap st) (trace st ++ [EvGet d sel])%list)
    /\ (rec = None <-> err <> None)
    /\ (forall e, fst got = inl e -> rec = Some e)
    /\ (fst got = inr sql_ErrNoRows -> err = Some KeyNotFoundErr)
    /\ (forall x, fst got = inr x -> x <> sql_ErrNoRows -> err = Some x).
Proof.
  intros Hr Hd sel got.
  rewrite (getExistingByName_run st r m d nm Hr Hd). fold sel. fold got.
  unfold st_Get_entry. fold got.
  destruct (fst got) as [e|x]; [|destruct x];
    eexists _, _; (split; [reflexivity|]);
    repeat split; intros; try discriminate; try congruence.
Qed.

(** X3. [isValid] reads the clock at most and changes nothing; its answer
    does not depend on the name and the timeout it is given.  A nil record
    is refused first, then a record not in use (even when it is also old),
    then a record in use last used more than [MaxAge] ago; a record in use
    whose age is [MaxAge] exactly, or less, or whose last use lies in the
    future, is accepted. *)
Theorem isValid_judgement (st : St W) (existingLock : option LockEntry)
    (nm nm' : string) (t t' : Duration) :
  isValid existingLock nm t st = isValid existingLock nm' t' st
  /\ snd (isValid existingLock nm t st) = st
  /\ (existingLock = None ->
      fst (isValid existingLock nm t st)
      = Done (Some (errorString "existing lock cannot be nil")))
  /\ (forall e, existingLock = Some e -> InUse e = false ->
        fst (isValid existingLock nm t st)
        = Done (Some (errorString "existing lock is not in use")))
  /\ (forall e, existingLock = Some e -> InUse e = true ->
        clock (world st) - LastUsed e > MaxAge ->
        fst (isValid existingLock nm t st)
        = Done (Some (errorString "existing lock is stale")))
  /\ (forall e, existingLock = Some e -> InUse e = true ->
        clock (world st) - LastUsed e <= MaxAge ->
        fst (isValid existingLock nm t st) = Done None).
Proof.
  split; [reflexivity|].
  destruct existingLock as [e|].
  2:{ repeat split; intros; try discriminate; reflexivity. }
  rewrite isValid_run. cbn [fst snd].
  split; [reflexivity|]. split; [discriminate|].
  split; [|split].
  - intros e' [= <-] Huse. rewrite Huse. reflexivity.
  - intros e' [= <-] Huse Hold. rewrite Huse. cbn [negb].
    rewrite (proj2 (stale_iff _ _) Hold). reflexivity.
  - intros e' [= <-] Huse Hfresh. rewrite Huse. cbn [negb].
    destruct (MaxAge <? Sub (clock (world st)) (LastUsed e)) eqn:Hb; [|reflexivity].
    apply stale_iff in Hb. lia.
Qed.

(** X4. When the store fails the statement of [takeover], or the count of
    rows affected cannot be read, [takeover] returns an error that names
    the lock and carries the cause; it has made that one call and no
    other, and does not try again. *)
Theorem takeover_reports_failures (st : St W) (r : ptr) (m : RLock) (d : DB)
    (origName origOwner : string) (force : bool) :
  points_to st r m -> db m = Some d ->
  let q :=
    UPDATE [F_owner (owner m); F_in_use true]
      (if force then [F_name origName; F_owner origOwner]
       else [F_name origName; F_in_use false; F_owner origOwner]) in
  let after :=
    mkSt (snd (db_Exec d q (world st))) (heap st) (trace st ++ [EvExec d q])%list in
  (forall e, fst (db_Exec d q (world st)) = inr e ->
     takeover r origName origOwner force st
     = (Done (Some (errorString
                ("unable to take over '" ++ origName ++ "': " ++ Error e))), after))
  /\ (forall res e, fst (db_Exec d q (world st)) = inl res ->
        RowsAffected res = inr e ->
        takeover r origName origOwner force st
        = (Done (Some (errorString
                   ("unable to determine rows affected during takeover for '"
                    ++ origName ++ "': " ++ Error e))), after)).
Proof.
  intros Hr Hd q after.
  rewrite (takeover_run st r m d origName origOwner force Hr Hd).
  change (takeover_query (owner m) origName origOwner force) with q.
  change (st_Exec d q st) with after.
  split.
  - intros e ->. reflexivity.
  - intros res e -> He. cbn [takeover_answer]. rewrite He. reflexivity.
Qed.

(** The world after [Unlock] is the world after its statement. *)
Lemma Unlock_logs_its_errors_run (st : St W) (l : Lock) (m : RLock) (d : DB)
    (lastError : option error) :
  points_to st (rl l) m -> db m = Some d ->
  let msg := match lastError with None => "" | Some e => Error e end in
  let q := unlock_query msg (name l) (owner m) in
  exists out,
    Lock_Unlock l lastError st
    = (Done out,
       mkSt (snd (db_Exec d q (world st))) (heap st)
         (trace st ++ EvExec d q
            :: match out with Some e => [EvLog (Error e)] | None => [] end)%list).
Proof.
  intros Hr Hd msg q. unfold Lock_Unlock, bind.
  rewrite (deref_run _ _ _ Hr), Hd, Exec_run. fold msg q.
  unfold st_Exec, log_Error, emit, ret.
  destruct (fst (db_Exec d q (world st))) as [res|e].
  - destruct (RowsAffected res) as [n|e].
    + destruct (n =? 1); cbn [negb].
      * exists None. reflexivity.
      * eexists (Some _). cbn [world heap trace]. rewrite <- app_assoc. reflexivity.
    + eexists (Some _). cbn [world heap trace]. rewrite <- app_assoc. reflexivity.
  - eexists (Some _). cbn [world heap trace]. rewrite <- app_assoc. reflexivity.
Qed.

(** X5. [Unlock] makes one call to the store and logs every error it
    returns, once, and nothing when it succeeds.  When the statement went
    through but the count of rows cannot be read, the error says so and
    carries the cause. *)
Theorem Unlock_logs_its_errors (st : St W) (l : Lock) (m : RLock) (d : DB)
    (lastError : option error) :
  points_to st (rl l) m -> db m = Some d ->
  let msg := match lastError with None => "" | Some e => Error e end in
  let q := UPDATE [F_in_use false; F_last_error msg] [F_name (name l); F_owner (owner m)] in
  exists out,
    Lock_Unlock l lastError st
    = (Done out,
       mkSt (snd (db_Exec d q (world st))) (heap st)
         (trace st ++ EvExec d q
            :: match out with Some e => [EvLog (Error e)] | None => [] end)%list)
    /\ (forall res e,
          fst (db_Exec d q (world st)) = inl res -> RowsAffected res = inr e ->
          out = Some (errorString
                  ("unable to determine affected rows after unlock for '"
                   ++ name l ++ "': " ++ Error e))).
Proof.
  intros Hr Hd msg q. unfold Lock_Unlock, bind.
  rewrite (deref_run _ _ _ Hr), Hd, Exec_run.
  fold msg. change (unlock_query msg (name l) (owner m)) with q.
  unfold st_Exec, log_Error, emit, ret.
  destruct (fst (db_Exec d q (world st))) as [res|e].
  - destruct (RowsAffected res) as [n|e] eqn:Hn.
    + destruct (n =? 1); cbn [negb].
      * exists None. split; [reflexivity|].
        intros res' e' [= <-] He'. rewrite Hn in He'. discriminate.
      * eexists (Some _). split.
        -- cbn [world heap trace]. rewrite <- app_assoc. reflexivity.
        -- intros res' e' [= <-] He'. rewrite Hn in He'. discriminate.
    + eexists (Some _). split.
      * cbn [world heap trace]. rewrite <- app_assoc. reflexivity.
      * intros res' e' [= <-] He'. rewrite Hn in He'.
        injection He' as <-. reflexivity.
  - eexists (Some _). split; [|intros; discriminate].
    cbn [world heap trace]. rewrite <- app_assoc. reflexivity.
Qed.

(** X6. [LastError] makes one read, of last_error on the rows whose name
    is the handle's and whose owner is the manager's own token, and writes
    nothing.  An empty text read gives nil, and only that does; any other
    text gives an error with that text as its message; a failure of the
    read, also when no row is the manager's any more, gives an error that
    carries the cause. *)
Theorem LastError_contract (st : St W) (l : Lock) (m : RLock) (d : DB) :
  points_to st (rl l) m -> db m = Some d ->
  let q := SELECT_last_error [F_name (name l); F_owner (owner m)] in
  let got := db_Get_string d q (world st) in
  exists out,
    Lock_LastError l st
    = (Done out, mkSt (snd got) (heap st) (trace st ++ [EvGet d q])%list)
    /\ (out = None <-> fst got = inl "")
    /\ (forall s, fst got = inl s -> s <> "" ->
          exists e, out = Some e /\ Error e = s)
    /\ (forall x, fst got = inr x ->
          out = Some (errorString
                  ("unexpected error while fetching last error state: " ++ Error x))).
Proof.
  intros Hr Hd q got. unfold Lock_LastError, bind.
  rewrite (deref_run _ _ _ Hr), Hd, Get_string_run.
  change (last_error_query (name l) (owner m)) with q. fold got.
  unfold st_Get_string. fold got.
  destruct (fst got) as [s|x].
  - destruct (String.eqb_spec s "") as [->|Hne].
    + eexists. split; [reflexivity|]. repeat split; intros; congruence.
    + eexists. split; [reflexivity|]. split; [|split].
      * split; [discriminate|]. intros [= Hs]. contradiction.
      * intros s' [= <-] _. eexists. split; reflexivity.
      * intros; discriminate.
  - eexists. split; [reflexivity|]. split; [|split].
    + split; discriminate.
    + intros; discriminate.
    + intros x' [= <-]. reflexivity.
Qed.

(** The calls that the loop makes, however it ends. *)
Lemma poll_trace n : forall (st : St W) r m d nm acquireTimeout e timer,
  points_to st r m -> db m = Some d ->
  let upd := takeover_query (owner m) nm (Owner e) false in
  exists k,
    (k <= n)%nat
    /\ trace (snd (poll n r nm acquireTimeout (Some e) timer st))
       = (trace st ++ turns d upd k)%list.
Proof.
  induction n as [|n IH]; intros st r m d nm acquireTimeout e timer Hr Hd upd.
  - exists O. split; [constructor|]. cbn. rewrite app_nil_r. reflexivity.
  - rewrite (poll_step st n r m d nm acquireTimeout e timer Hr Hd). fold upd.
    destruct (fst (timer_C timer (world st))).
    { exists O. split; [apply Nat.le_0_l|]. cbn. rewrite app_nil_r. reflexivity. }
    set (st_s := st_Sleep PollInterval (st_select timer st)).
    set (st_t := st_turn d upd timer st).
    assert (Htr : trace st_t
                  = (trace st ++ [EvSleep PollInterval; EvExec d upd])%list).
    { unfold st_t, st_turn, st_Exec, st_Sleep, st_select. cbn [trace].
      rewrite <- app_assoc. reflexivity. }
    destruct (takeover_answer nm (fst (db_Exec d upd (world st_s)))) as [err|].
    + assert (Hr' : points_to st_t r m) by (destruct r; exact Hr).
      destruct (IH st_t r m d nm acquireTimeout e timer Hr' Hd) as (k & Hk & Hrun).
      exists (S k). split; [apply le_n_S, Hk|].
      rewrite Hrun, Htr, <- app_assoc. reflexivity.
    + exists 1%nat. split; [apply le_n_S, Nat.le_0_l|].
      cbn [snd]. rewrite Htr. unfold turns. cbn [repeat List.concat app].
      reflexivity.
Qed.

(** X8. The calls [Lock] makes, however it ends: the insert alone, when
    it did not fail on a duplicate; or the insert and the fetch, when the
    fetch failed; or these and one forced takeover; or these and turns of a
    sleep of [PollInterval] followed by a guarded takeover.  The owner in
    the guard of every takeover is the [Owner] of the record that the fetch
    returned.  It never makes a second insert or fetch, never mixes forced
    and guarded takeovers, and issues no other statement. *)
Theorem Lock_calls (st : St W) (fuel : nat) (r : ptr) (m : RLock) (d : DB)
    (nm : string) (acquireTimeout : Duration) :
  points_to st r m -> db m = Some d ->
  let ins := INSERT [F_name nm; F_owner (owner m); F_in_use true] in
  let sel := SELECT_star [F_name nm] in
  let inserted := fst (db_Exec d ins (world st)) in
  let fetched := fst (db_Get_entry d sel (snd (db_Exec d ins (world st)))) in
  let after := trace (snd (RLock_Lock fuel r nm acquireTimeout st)) in
  ((forall err, inserted = inr err -> is_dupe err = false)
   /\ after = (trace st ++ [EvExec d ins])%list)
  \/ (exists dupe err,
        inserted = inr dupe /\ is_dupe dupe = true /\ fetched = inr err
        /\ after = (trace st ++ [EvExec d ins; EvGet d sel])%list)
  \/ (exists dupe e,
        inserted = inr dupe /\ is_dupe dupe = true /\ fetched = inl e
        /\ after
           = (trace st ++ [EvExec d ins; EvGet d sel;
                           EvExec d (UPDATE [F_owner (owner m); F_in_use true]
                                       [F_name nm; F_owner (Owner e)])])%list)
  \/ (exists dupe e k,
        inserted = inr dupe /\ is_dupe dupe = true /\ fetched = inl e
        /\ (k <= fuel)%nat
        /\ after
           = (trace st ++ [EvExec d ins; EvGet d sel]
              ++ turns d (UPDATE [F_owner (owner m); F_in_use true]
                            [F_name nm; F_in_use false; F_owner (Owner e)]) k)%list).
Proof.
  intros Hr Hd ins sel inserted fetched after. subst after inserted fetched.
  rewrite (Lock_insert_run st fuel r m d nm acquireTimeout Hr Hd).
  change (insert_query nm (owner m)) with ins.
  destruct (fst (db_Exec d ins (world st))) as [res|err] eqn:Hins;
    [left; split; [intros bad Hbad; discriminate Hbad|reflexivity]|].
  destruct (is_dupe err) eqn:Hdupe;
    [|left; split; [intros bad [= <-]; exact Hdupe|reflexivity]].
  pose proof (Lock_fetch_run st fuel r m d nm acquireTimeout err Hr Hd Hins Hdupe)
    as Hrun.
  rewrite (Lock_insert_run st fuel r m d nm acquireTimeout Hr Hd) in Hrun.
  change (insert_query nm (owner m)) with ins in Hrun. fold sel in Hrun.
  rewrite Hins, Hdupe in Hrun. rewrite Hrun. clear Hrun.
  rewrite st_fetch_eq.
  set (w2 := snd (db_Get_entry d sel (snd (db_Exec d ins (world st))))).
  set (st2 := mkSt w2 (heap st) (trace st ++ [EvExec d ins; EvGet d sel])%list).
  assert (Hr2 : points_to st2 r m) by (destruct r; exact Hr).
  change (world (st_Exec d ins st)) with (snd (db_Exec d ins (world st))).
  destruct (fst (db_Get_entry d sel (snd (db_Exec d ins (world st))))) as [e|x].
  2:{ right; left. exists err, x.
      split; [reflexivity|]. split; [exact Hdupe|]. split; [reflexivity|].
      destruct x; reflexivity. }
  destruct (negb (InUse e) || (MaxAge <? Sub (clock (world st2)) (LastUsed e))).
  - right; right; left. exists err, e.
    split; [reflexivity|]. split; [exact Hdupe|]. split; [reflexivity|].
    rewrite (takeover_run st2 r m d nm (Owner e) true Hr2 Hd).
    assert (Htr : trace (st_Exec d (takeover_query (owner m) nm (Owner e) true) st2)
                  = (trace st ++ [EvExec d ins; EvGet d sel;
                        EvExec d (UPDATE [F_owner (owner m); F_in_use true]
                                    [F_name nm; F_owner (Owner e)])])%list).
    { unfold st_Exec, st2. cbn [trace]. rewrite <- app_assoc. reflexivity. }
    destruct (takeover_answer nm _); exact Htr.
  - right; right; right.
    destruct (poll_trace fuel st2 r m d nm acquireTimeout e
                (clock (world st2) + Z.max 0 acquireTimeout) Hr2 Hd) as (k & Hk & Htr).
    exists err, e, k.
    split; [reflexivity|]. split; [exact Hdupe|]. split; [reflexivity|].
    split; [exact Hk|].
    rewrite Htr. unfold st2. cbn [trace]. rewrite <- app_assoc. reflexivity.
Qed.

End Functions.

(** ** [Lock] as a whole, on any environment *)

Section Whole.
Context {W : Type} `{Env W}.

(** A property of the world that the statements of [Lock] for the name
    [nm], the fetches, and the looks at the timer and the sleeps of the
    loop all keep is kept by [Lock]. *)
Lemma Lock_invariant_rule (I : W -> Prop) (r : ptr) (m : RLock) (d : DB) (nm : string) :
  db m = Some d ->
  (forall w, I w -> I (snd (db_Exec d (insert_query nm (owner m)) w))) ->
  (forall w o force,
      I w -> I (snd (db_Exec d (takeover_query (owner m) nm o force) w))) ->
  (forall w, I w -> I (snd (db_Get_entry d (SELECT_star [F_name nm]) w))) ->
  (forall w, I w -> I (time_Sleep PollInterval w)) ->
  (forall w timer, I w -> I (snd (timer_C timer w))) ->
  forall fuel acquireTimeout (st : St W),
    points_to st r m -> I (world st) ->
    I (world (snd (RLock_Lock fuel r nm acquireTimeout st))).
Proof.
  intros Hd Hins Htk Hget Hsleep Hsel fuel acquireTimeout st Hr HI.
  assert (Hpoll : forall n e timer (stl : St W),
             points_to stl r m -> I (world stl) ->
             I (world (snd (poll n r nm acquireTimeout (Some e) timer stl)))).
  { induction n as [|n IH]; intros e timer stl Hrl HIl; [exact HIl|].
    rewrite (poll_step stl n r m d nm acquireTimeout e timer Hrl Hd).
    destruct (fst (timer_C timer (world stl))); [apply Hsel, HIl|].
    assert (HIt : I (world (st_turn d (takeover_query (owner m) nm (Owner e) false)
                              timer stl)))
      by (apply Htk, Hsleep, Hsel, HIl).
    destruct (takeover_answer nm _); [|exact HIt].
    apply IH; [destruct r; exact Hrl|exact HIt]. }
  rewrite (Lock_insert_run st fuel r m d nm acquireTimeout Hr Hd).
  assert (HI1 : I (world (st_Exec d (insert_query nm (owner m)) st)))
    by (apply Hins, HI).
  destruct (fst (db_Exec d (insert_query nm (owner m)) (world st))) as [res|err] eqn:Hi;
    [exact HI1|].
  destruct (is_dupe err) eqn:Hdupe; [|exact HI1].
  pose proof (Lock_fetch_run st fuel r m d nm acquireTimeout err Hr Hd Hi Hdupe) as Hrun.
  rewrite (Lock_insert_run st fuel r m d nm acquireTimeout Hr Hd), Hi, Hdupe in Hrun.
  rewrite Hrun. clear Hrun.
  set (st1 := st_Exec d (insert_query nm (owner m)) st) in *.
  set (st2 := st_Get_entry d (SELECT_star [F_name nm]) st1).
  assert (HI2 : I (world st2)) by (apply Hget, HI1).
  assert (Hr2 : points_to st2 r m) by (destruct r; exact Hr).
  destruct (fst (db_Get_entry d (SELECT_star [F_name nm]) (world st1))) as [e|x].
  2:{ destruct x; exact HI2. }
  destruct (negb (InUse e) || (MaxAge <? Sub (clock (world st2)) (LastUsed e))).
  - rewrite (takeover_run st2 r m d nm (Owner e) true Hr2 Hd).
    assert (HI3 : I (world (st_Exec d (takeover_query (owner m) nm (Owner e) true) st2)))
      by (apply Htk, HI2).
    destruct (takeover_answer nm _); exact HI3.
  - apply Hpoll; assumption.
Qed.

End Whole.

Section Totality.
Context {W : Type} `{Env W} `{!Timely W}.

(** X7. On a manager made by [New], and time being [Timely], [Lock]
    always returns: it neither panics nor polls for ever (a bound of the
    number of poll intervals in the timeout and the delivery lag of the
    timer, plus two, on the turns of the loop is never reached), whatever
    the store answers.  What it returns is a handle and no error, or an
    error and no handle. *)
Theorem Lock_returns (st : St W) (fuel : nat) (r : ptr) (m : RLock) (d : DB)
    (nm : string) (acquireTimeout : Duration) :
  points_to st r m -> db m = Some d ->
  (Z.to_nat ((Z.max 0 acquireTimeout + timer_lag) / PollInterval) + 2 <= fuel)%nat ->
  exists out st',
    RLock_Lock fuel r nm acquireTimeout st = (Done out, st')
    /\ ((exists l, out = (Some l, None)) \/ (exists e, out = (None, Some e))).
Proof.
  intros Hr Hd Hfuel.
  rewrite (Lock_insert_run st fuel r m d nm acquireTimeout Hr Hd).
  destruct (fst (db_Exec d (insert_query nm (owner m)) (world st))) as [res|err] eqn:Hi.
  { eexists _, _. split; [reflexivity|]. left. eexists. reflexivity. }
  destruct (is_dupe err) eqn:Hdupe.
  2:{ eexists _, _. split; [reflexivity|]. right. eexists. reflexivity. }
  pose proof (Lock_fetch_run st fuel r m d nm acquireTimeout err Hr Hd Hi Hdupe) as Hrun.
  rewrite (Lock_insert_run st fuel r m d nm acquireTimeout Hr Hd), Hi, Hdupe in Hrun.
  rewrite Hrun. clear Hrun.
  set (st1 := st_Exec d (insert_query nm (owner m)) st).
  set (st2 := st_Get_entry d (SELECT_star [F_name nm]) st1).
  assert (Hr2 : points_to st2 r m) by (destruct r; exact Hr).
  destruct (fst (db_Get_entry d (SELECT_star [F_name nm]) (world st1))) as [e|x].
  2:{ destruct x; eexists _, _; (split; [reflexivity|]); right; eexists; reflexivity. }
  destruct (negb (InUse e) || (MaxAge <? Sub (clock (world st2)) (LastUsed e))).
  - rewrite (takeover_run st2 r m d nm (Owner e) true Hr2 Hd).
    destruct (takeover_answer nm _); eexists _, _; (split; [reflexivity|]);
      [right|left]; eexists; reflexivity.
  - destruct fuel as [|n]; [lia|].
    assert (Hleft : clock (world st2) + Z.max 0 acquireTimeout + timer_lag
                    - clock (world st2)
                    <= Z.of_nat n * PollInterval).
    { pose proof (fuel_covers _ n Hfuel). lia. }
    destruct (poll_run n st2 r m d nm acquireTimeout e _ Hr2 Hd Hleft)
      as (k & _ & [(_ & _ & _ & Hres)|(_ & _ & Hres)]);
      eexists _, _; (split; [exact Hres|]); [left|right]; eexists; reflexivity.
Qed.

End Totality.

(** ** Further properties, on the table in memory *)

Section OnTheTable.
Import MemStore.

Lemma next_fault_nil w : faults w = [] -> next_fault w = (NoFault, w).
Proof. unfold next_fault. intros ->. reflexivity. Qed.

(** With no fault scripted, a statement is run on the table and its
    outcome handed back as it is. *)
Lemma mem_Exec_quiet d q w :
  faults w = [] ->
  mem_Exec d q w
  = (match fst (run_stmt (now w) (next_id w) q (table w)) with
     | inl n => inl (mkResult (inl n))
     | inr e => inr e
     end,
     mkMem (snd (run_stmt (now w) (next_id w) q (table w))) (now w) (next_id w + 1)
       [] (others w) (ids w)).
Proof.
  intros Hf. unfold mem_Exec. rewrite (next_fault_nil w Hf).
  destruct (run_stmt (now w) (next_id w) q (table w)) as [[n|e] rows];
    cbn [fst snd]; rewrite Hf; reflexivity.
Qed.

(** Whatever the faults, a call either runs its statement on the table or
    leaves the table alone; it touches neither the clock nor the agenda of
    the other clients. *)
Lemma mem_Exec_table d q w :
  (table (snd (mem_Exec d q w)) = table w
   \/ table (snd (mem_Exec d q w)) = snd (run_stmt (now w) (next_id w) q (table w)))
  /\ now (snd (mem_Exec d q w)) = now w
  /\ others (snd (mem_Exec d q w)) = others w.
Proof.
  unfold mem_Exec, next_fault.
  destruct (faults w) as [|f rest]; [|destruct f];
    cbn [now next_id table faults others ids fst snd];
    try (destruct (run_stmt (now w) (next_id w) q (table w)) as [[cnt|bad] rows]);
    cbn [now next_id table faults others ids fst snd]; auto.
Qed.

Lemma mem_Get_entry_world d q w :
  table (snd (mem_Get_entry d q w)) = table w
  /\ now (snd (mem_Get_entry d q w)) = now w
  /\ others (snd (mem_Get_entry d q w)) = others w.
Proof.
  unfold mem_Get_entry, next_fault.
  destruct (faults w) as [|f rest]; [|destruct f]; destruct q; cbn; auto.
Qed.

Lemma mem_Get_string_world d q w :
  table (snd (mem_Get_string d q w)) = table w
  /\ now (snd (mem_Get_string d q w)) = now w
  /\ others (snd (mem_Get_string d q w)) = others w.
Proof.
  unfold mem_Get_string, next_fault.
  destruct (faults w) as [|f rest]; [|destruct f]; destruct q; cbn; auto.
Qed.

Lemma mem_Sleep_alone d w :
  others w = [] ->
  table (mem_Sleep d w) = table w /\ others (mem_Sleep d w) = []
  /\ now (mem_Sleep d w) = now w + Z.max 0 d /\ faults (mem_Sleep d w) = faults w.
Proof. unfold mem_Sleep. intros ->. cbn. auto. Qed.

(** What the statements of the code do to the rows of other locks, to the
    names and to the number of rows. *)
Lemma other_rows_app nm a b : other_rows nm (a ++ b) = (other_rows nm a ++ other_rows nm b)%list.
Proof. apply filter_app. Qed.

Lemma update_keeps_others t nm conds set rows :
  (forall r, Name (apply_set set r) = Name r) ->
  other_rows nm
    (map (fun r => if where_holds (F_name nm :: conds) r
                   then touch t (apply_set set r) else r) rows)
  = other_rows nm rows.
Proof.
  intros Hname. induction rows as [|r rows IH]; [reflexivity|].
  cbn [map other_rows filter]. fold (other_rows nm rows).
  fold (other_rows nm (map (fun r => if where_holds (F_name nm :: conds) r
                                     then touch t (apply_set set r) else r) rows)).
  rewrite IH.
  destruct (where_holds (F_name nm :: conds) r) eqn:Hw; [|reflexivity].
  unfold where_holds in Hw. cbn [forallb holds] in Hw.
  apply andb_true_iff in Hw as [Hn _].
  cbn [touch Name]. rewrite Hname, Hn. reflexivity.
Qed.

Lemma update_keeps_names t conds set rows :
  (forall r, Name (apply_set set r) = Name r) ->
  names (map (fun r => if where_holds conds r then touch t (apply_set set r) else r) rows)
  = names rows.
Proof.
  intros Hname. unfold names. rewrite map_map. apply map_ext.
  intros r. destruct (where_holds conds r); [cbn; apply Hname|reflexivity].
Qed.

Lemma NoDup_snoc {A} (l : list A) (x : A) : NoDup l -> ~ In x l -> NoDup (l ++ [x]).
Proof.
  induction l as [|y l IH]; intros Hnd Hx; cbn.
  - constructor; [exact (fun F => F)|constructor].
  - apply NoDup_cons_iff in Hnd as [Hy Hnd]. constructor.
    + rewrite in_app_iff. intros [Hin|[->|[]]]; [exact (Hy Hin)|apply Hx; left; reflexivity].
    + apply IH; [exact Hnd|]. intros Hin. apply Hx. right. exact Hin.
Qed.

Lemma name_taken_In nm rows : name_taken nm rows = true <-> In nm (names rows).
Proof.
  unfold name_taken, names. rewrite existsb_exists, in_map_iff.
  split; intros (r & H1 & H2).
  - exists r. split; [apply String.eqb_eq, H2|exact H1].
  - exists r. split; [exact H2|apply String.eqb_eq, H1].
Qed.

Lemma run_stmt_frame t id nm q rows :
  for_lock nm q ->
  let rows' := snd (run_stmt t id q rows) in
  other_rows nm rows' = other_rows nm rows
  /\ (NoDup (names rows) -> NoDup (names rows'))
  /\ (List.length rows <= List.length rows')%nat.
Proof.
  intros [(self & ->)|[(self & o & force & ->)|(msg & self & ->)]] rows'; subst rows'.
  - unfold insert_query. cbn [run_stmt].
    change (Name (apply_set [F_name nm; F_owner self; F_in_use true] (blank_row id t)))
      with nm.
    destruct (name_taken nm rows) eqn:Htaken; cbn [snd]; [auto|].
    split; [|split].
    + rewrite other_rows_app. cbn. rewrite String.eqb_refl. cbn. apply app_nil_r.
    + intros Hnd. unfold names. rewrite map_app. cbn [map].
      change (Name (apply_set [F_name nm; F_owner self; F_in_use true] (blank_row id t)))
        with nm.
      apply NoDup_snoc; [exact Hnd|].
      intros Hin. apply name_taken_In in Hin. congruence.
    + rewrite length_app. cbn. lia.
  - unfold takeover_query, takeover_where. destruct force; cbn [run_stmt snd];
      (split; [apply update_keeps_others; reflexivity|]);
      (split; [rewrite update_keeps_names by reflexivity; auto|]);
      rewrite length_map; constructor.
  - unfold unlock_query. cbn [run_stmt snd].
    split; [apply update_keeps_others; reflexivity|].
    split; [rewrite update_keeps_names by reflexivity; auto|].
    rewrite length_map. constructor.
Qed.

Lemma frame_refl nm rows : frame nm rows rows.
Proof. repeat split; auto. Qed.

Lemma frame_trans nm rows0 rows1 rows2 :
  frame nm rows0 rows1 -> frame nm rows1 rows2 -> frame nm rows0 rows2.
Proof.
  intros (H1 & H2 & H3) (K1 & K2 & K3). repeat split.
  - congruence.
  - auto.
  - lia.
Qed.

Lemma mem_Exec_frame d q nm rows0 w :
  for_lock nm q -> frame nm rows0 (table w) -> frame nm rows0 (table (snd (mem_Exec d q w))).
Proof.
  intros Hq Hfr. destruct (mem_Exec_table d q w) as ([-> | ->] & _); [exact Hfr|].
  apply (frame_trans nm rows0 (table w)); [exact Hfr|].
  exact (run_stmt_frame (now w) (next_id w) nm q (table w) Hq).
Qed.

(** X9. Whatever the store answers and however [Lock] ends, with no other
    client at work a call of [Lock] for one name leaves the rows of every
    other lock exactly as they were, keeps the names in the table distinct
    if they were, and removes no row. *)
Theorem Lock_keeps_other_locks (w : Mem) (hp : list RLock) (tr : list Event)
    (fuel : nat) (r : ptr) (m : RLock) (d : DB) (nm : string) (acquireTimeout : Duration) :
  points_to (mkSt w hp tr) r m -> db m = Some d -> others w = [] ->
  let rows' := table (world (snd (RLock_Lock fuel r nm acquireTimeout (mkSt w hp tr)))) in
  other_rows nm rows' = other_rows nm (table w)
  /\ (NoDup (names (table w)) -> NoDup (names rows'))
  /\ (List.length (table w) <= List.length rows')%nat.
Proof.
  intros Hr Hd Hoth rows'.
  pose (I := fun w' : Mem => others w' = [] /\ frame nm (table w) (table w')).
  assert (HI : I (world (snd (RLock_Lock fuel r nm acquireTimeout (mkSt w hp tr))))).
  { apply (@Lock_invariant_rule Mem env I r m d nm Hd).
    - intros w0 (Ho & Hf). split.
      + rewrite <- Ho. apply (mem_Exec_table d _ w0).
      + apply mem_Exec_frame; [left; eexists; reflexivity|exact Hf].
    - intros w0 o force (Ho & Hf). split.
      + rewrite <- Ho. apply (mem_Exec_table d _ w0).
      + apply mem_Exec_frame; [right; left; eexists _, _, _; reflexivity|exact Hf].
    - intros w0 (Ho & Hf).
      destruct (mem_Get_entry_world d (SELECT_star [F_name nm]) w0) as (Ht & _ & Ho').
      change (db_Get_entry d (SELECT_star [F_name nm]) w0)
        with (mem_Get_entry d (SELECT_star [F_name nm]) w0).
      split; [congruence|]. rewrite Ht. exact Hf.
    - intros w0 (Ho & Hf).
      destruct (mem_Sleep_alone PollInterval w0 Ho) as (Ht & Ho' & _).
      change (time_Sleep PollInterval w0) with (mem_Sleep PollInterval w0).
      split; [exact Ho'|]. rewrite Ht. exact Hf.
    - intros w0 timer HI0. exact HI0.
    - exact Hr.
    - split; [exact Hoth|apply frame_refl]. }
  exact (proj2 HI).
Qed.

(** X10. [Unlock], whatever the store answers, neither adds nor removes a
    row nor changes a name, and leaves the rows of every other lock
    exactly as they were. *)
Theorem Unlock_keeps_other_locks (w : Mem) (hp : list RLock) (tr : list Event)
    (l : Lock) (m : RLock) (d : DB) (lastError : option error) :
  points_to (mkSt w hp tr) (rl l) m -> db m = Some d ->
  let rows' := table (world (snd (Lock_Unlock l lastError (mkSt w hp tr)))) in
  other_rows (name l) rows' = other_rows (name l) (table w)
  /\ names rows' = names (table w).
Proof.
  intros Hr Hd rows'.
  destruct (Unlock_logs_its_errors_run (mkSt w hp tr) l m d lastError Hr Hd) as (out & Hrun).
  subst rows'. rewrite Hrun. cbn [snd world].
  change (db_Exec d ?q w) with (mem_Exec d q w).
  set (msg := match lastError with None => "" | Some e => Error e end).
  destruct (mem_Exec_table d (unlock_query msg (name l) (owner m)) w) as ([-> | ->] & _);
    [split; reflexivity|].
  unfold unlock_query. cbn [run_stmt snd]. split.
  - apply update_keeps_others. reflexivity.
  - apply update_keeps_names. reflexivity.
Qed.

Lemma mem_Sleep_faults d w : faults (mem_Sleep d w) = faults w.
Proof.
  unfold mem_Sleep. destruct (run_others _ _ _ _) as [[todo rows] id]. reflexivity.
Qed.

Lemma mem_Get_entry_faults d q w :
  faults w = [] -> faults (snd (mem_Get_entry d q w)) = [].
Proof.
  intros Hf. unfold mem_Get_entry. rewrite (next_fault_nil w Hf).
  destruct q; exact Hf.
Qed.

Lemma mem_Exec_faults d q w : faults w = [] -> faults (snd (mem_Exec d q w)) = [].
Proof. intros Hf. rewrite (mem_Exec_quiet d q w Hf). reflexivity. Qed.

(** An update that reports one row has changed a row its [WHERE] list
    selects. *)
Lemma update_one_row t id set conds rows :
  fst (run_stmt t id (UPDATE set conds) rows) = inl 1 ->
  exists row, In row rows /\ where_holds conds row = true
              /\ In (touch t (apply_set set row)) (snd (run_stmt t id (UPDATE set conds) rows)).
Proof.
  cbn [run_stmt fst snd]. intros [= Hlen].
  destruct (filter (where_holds conds) rows) as [|row rest] eqn:Hfil; [discriminate|].
  assert (Hin : In row (filter (where_holds conds) rows)) by (rewrite Hfil; left; reflexivity).
  apply filter_In in Hin as [Hin Hw].
  exists row. split; [exact Hin|]. split; [exact Hw|].
  apply in_map_iff. exists row. rewrite Hw. split; [reflexivity|exact Hin].
Qed.

Lemma takeover_answer_nil nm (n : nat) :
  takeover_answer nm (inl (mkResult (inl (Z.of_nat n)))) = None -> Z.of_nat n = 1.
Proof.
  cbn. destruct (Z.ltb_spec 1 (Z.of_nat n)); [discriminate|].
  destruct (Z.eqb_spec (Z.of_nat n) 0); [discriminate|]. lia.
Qed.

Lemma mem_takeover_holds d self nm o force w :
  faults w = [] ->
  takeover_answer nm (fst (mem_Exec d (takeover_query self nm o force) w)) = None ->
  held_by nm self (table (snd (mem_Exec d (takeover_query self nm o force) w))).
Proof.
  intros Hf. rewrite (mem_Exec_quiet d _ w Hf). cbn [fst snd table].
  unfold takeover_query.
  set (conds := takeover_where nm o force).
  set (set_ := [F_owner self; F_in_use true]).
  intros Hans.
  assert (Hone : fst (run_stmt (now w) (next_id w) (UPDATE set_ conds) (table w)) = inl 1).
  { cbn [run_stmt fst] in Hans |- *. apply takeover_answer_nil in Hans.
    rewrite Hans. reflexivity. }
  destruct (update_one_row _ _ _ _ _ Hone) as (row & _ & Hw & Hin).
  exists (touch (now w) (apply_set set_ row)). split; [exact Hin|].
  apply where_holds_takeover in Hw as (Hn & _). cbn. auto.
Qed.

Lemma mem_insert_holds d nm self w res :
  faults w = [] ->
  fst (mem_Exec d (insert_query nm self) w) = inl res ->
  held_by nm self (table (snd (mem_Exec d (insert_query nm self) w))).
Proof.
  intros Hf. rewrite (mem_Exec_quiet d _ w Hf). cbn [fst snd table].
  unfold insert_query. cbn [run_stmt].
  change (Name (apply_set [F_name nm; F_owner self; F_in_use true]
                  (blank_row (next_id w) (now w)))) with nm.
  destruct (name_taken nm (table w)); cbn [fst snd]; [discriminate|]. intros _.
  eexists. split; [apply in_or_app; right; left; reflexivity|]. cbn. auto.
Qed.

(** X11. On a store that meets no fault, when [Lock] returns a handle the
    table says so: some row bears the name asked for, the manager's own
    token as owner, and in_use set.  This holds on every path (fresh
    insert, forced takeover, guarded takeover after polling) and whatever
    the other clients do meanwhile. *)
Theorem Lock_holds_record (w : Mem) (hp : list RLock) (tr : list Event) (fuel : nat)
    (r : ptr) (m : RLock) (d : DB) (nm : string) (acquireTimeout : Duration)
    (l : Lock) (st' : St Mem) :
  points_to (mkSt w hp tr) r m -> db m = Some d -> faults w = [] ->
  RLock_Lock fuel r nm acquireTimeout (mkSt w hp tr) = (Done (Some l, None), st') ->
  held_by nm (owner m) (table (world st')).
Proof.
  intros Hr Hd Hf.
  assert (Hpoll : forall n e timer (stl stl' : St Mem) l',
             points_to stl r m -> faults (world stl) = [] ->
             poll n r nm acquireTimeout (Some e) timer stl = (Done (Some l', None), stl') ->
             held_by nm (owner m) (table (world stl'))).
  { induction n as [|n IH]; intros e timer stl stl' l' Hrl Hfl; [discriminate|].
    rewrite (poll_step stl n r m d nm acquireTimeout e timer Hrl Hd).
    destruct (fst (timer_C timer (world stl))); [discriminate|].
    set (sts := st_Sleep PollInterval (st_select timer stl)).
    assert (Hfs : faults (world sts) = [])
      by (change (world sts) with (mem_Sleep PollInterval (world stl));
          rewrite mem_Sleep_faults; exact Hfl).
    set (upd := takeover_query (owner m) nm (Owner e) false).
    change (st_turn d upd timer stl) with (st_Exec d upd sts).
    change (db_Exec d upd (world sts)) with (mem_Exec d upd (world sts)).
    destruct (takeover_answer nm (fst (mem_Exec d upd (world sts)))) as [err|] eqn:Hans.
    - apply IH; [destruct r; exact Hrl|].
      unfold st_Exec. cbn [world].
      change (db_Exec d upd (world sts)) with (mem_Exec d upd (world sts)).
      apply mem_Exec_faults, Hfs.
    - intros [= _ <-]. unfold st_Exec. cbn [world].
      change (db_Exec d upd (world sts)) with (mem_Exec d upd (world sts)).
      exact (mem_takeover_holds d (owner m) nm (Owner e) false (world sts) Hfs Hans). }
  set (st := mkSt w hp tr) in *.
  rewrite (Lock_insert_run st fuel r m d nm acquireTimeout Hr Hd).
  set (ins := insert_query nm (owner m)).
  change (db_Exec d ins (world st)) with (mem_Exec d ins w).
  destruct (fst (mem_Exec d ins w)) as [res|err] eqn:Hi.
  { intros [= _ <-]. unfold st_Exec. cbn [world].
    change (db_Exec d ins (world st)) with (mem_Exec d ins w).
    exact (mem_insert_holds d nm (owner m) w res Hf Hi). }
  destruct (is_dupe err) eqn:Hdupe; [|discriminate].
  pose proof (Lock_fetch_run st fuel r m d nm acquireTimeout err Hr Hd Hi Hdupe) as Hrun.
  rewrite (Lock_insert_run st fuel r m d nm acquireTimeout Hr Hd) in Hrun.
  fold ins in Hrun. change (db_Exec d ins (world st)) with (mem_Exec d ins w) in Hrun.
  rewrite Hi, Hdupe in Hrun. rewrite Hrun. clear Hrun.
  set (st1 := st_Exec d ins st).
  set (sel := SELECT_star [F_name nm]).
  set (st2 := st_Get_entry d sel st1).
  assert (Hr2 : points_to st2 r m) by (destruct r; exact Hr).
  assert (Hf2 : faults (world st2) = []).
  { unfold st2, st_Get_entry, st1, st_Exec. cbn [world].
    change (db_Exec d ins w) with (mem_Exec d ins w).
    change (db_Get_entry d sel ?x) with (mem_Get_entry d sel x).
    apply mem_Get_entry_faults, mem_Exec_faults, Hf. }
  destruct (fst (db_Get_entry d sel (world st1))) as [e|x].
  2:{ destruct x; discriminate. }
  destruct (negb (InUse e) || (MaxAge <? Sub (clock (world st2)) (LastUsed e))).
  - rewrite (takeover_run st2 r m d nm (Owner e) true Hr2 Hd).
    set (upd := takeover_query (owner m) nm (Owner e) true).
    change (db_Exec d upd (world st2)) with (mem_Exec d upd (world st2)).
    destruct (takeover_answer nm (fst (mem_Exec d upd (world st2)))) eqn:Hans;
      [discriminate|].
    intros [= _ <-]. unfold st_Exec. cbn [world].
    change (db_Exec d upd (world st2)) with (mem_Exec d upd (world st2)).
    exact (mem_takeover_holds d (owner m) nm (Owner e) true (world st2) Hf2 Hans).
  - intros Hp. exact (Hpoll fuel e _ st2 st' l Hr2 Hf2 Hp).
Qed.

(** X12. On a store that meets no fault, when [Unlock] returns nil the
    table holds a row with the handle's name, the manager's own token as
    owner (release does not give the row away), in_use cleared and the
    message left in last_error. *)
Theorem Unlock_releases_record (w : Mem) (hp : list RLock) (tr : list Event)
    (l : Lock) (m : RLock) (d : DB) (lastError : option error) (st' : St Mem) :
  points_to (mkSt w hp tr) (rl l) m -> db m = Some d -> faults w = [] ->
  Lock_Unlock l lastError (mkSt w hp tr) = (Done None, st') ->
  exists row,
    In row (table (world st'))
    /\ Name row = name l /\ Owner row = owner m /\ InUse row = false
    /\ LastError row = match lastError with None => "" | Some e => Error e end.
Proof.
  intros Hr Hd Hf.
  set (msg := match lastError with None => "" | Some e => Error e end).
  set (q := unlock_query msg (name l) (owner m)).
  unfold Lock_Unlock, bind.
  rewrite (deref_run _ _ _ Hr), Hd, Exec_run. fold msg q.
  unfold st_Exec. cbn [world heap trace].
  change (db_Exec d q w) with (mem_Exec d q w).
  rewrite (mem_Exec_quiet d q w Hf). cbn [fst snd].
  destruct (fst (run_stmt (now w) (next_id w) q (table w))) as [n|e] eqn:Hrun;
    [|unfold log_Error, emit, ret; discriminate].
  cbn [RowsAffected].
  destruct (Z.eqb_spec n 1) as [->|Hne]; cbn [negb];
    [|unfold log_Error, emit, ret; discriminate].
  unfold ret. intros [= <-]. cbn [world table].
  destruct (update_one_row _ _ _ _ _ Hrun) as (row & _ & Hw & Hin).
  exists (touch (now w) (apply_set [F_in_use false; F_last_error msg] row)).
  split; [exact Hin|].
  unfold where_holds in Hw. cbn [forallb holds] in Hw.
  rewrite !andb_true_iff, !String.eqb_eq in Hw. destruct Hw as (Hn & Ho & _).
  cbn. auto.
Qed.

Lemma no_row_filter conds rows :
  (forall row, In row rows -> where_holds conds row = false) ->
  filter (where_holds conds) rows = []
  /\ find (where_holds conds) rows = None
  /\ forall f, map (fun r => if where_holds conds r then f r else r) rows = rows.
Proof.
  induction rows as [|r rows IH]; intros Hno; [repeat split|].
  destruct IH as (H1 & H2 & H3); [intros row Hin; apply Hno; right; exact Hin|].
  assert (Hr : where_holds conds r = false) by (apply Hno; left; reflexivity).
  cbn [filter find map]. rewrite Hr. repeat split; auto.
  intros f. rewrite H3. reflexivity.
Qed.

(** X13. A handle whose manager owns no row of that name in the table (the
    lock was taken over, or never held) can neither release nor read: on a
    store that meets no fault [Unlock] returns the error of zero rows
    affected and leaves the table as it was, and [LastError] returns an
    error, not nil. *)
Theorem stranger_cannot_unlock (w : Mem) (hp : list RLock) (tr : list Event)
    (l : Lock) (m : RLock) (d : DB) (lastError : option error) :
  points_to (mkSt w hp tr) (rl l) m -> db m = Some d -> faults w = [] ->
  (forall row, In row (table w) -> Name row = name l -> Owner row <> owner m) ->
  fst (Lock_Unlock l lastError (mkSt w hp tr))
  = Done (Some (errorString "unexpected number of affected rows after unlock (0)"))
  /\ table (world (snd (Lock_Unlock l lastError (mkSt w hp tr)))) = table w
  /\ fst (Lock_LastError l (mkSt w hp tr))
     = Done (Some (errorString
               "unexpected error while fetching last error state: sql: no rows in result set")).
Proof.
  intros Hr Hd Hf Hno.
  assert (Hnone : forall row, In row (table w) ->
            where_holds [F_name (name l); F_owner (owner m)] row = false).
  { intros row Hin. unfold where_holds. cbn [forallb holds].
    destruct (String.eqb_spec (Name row) (name l)) as [Hn|]; [|reflexivity].
    destruct (String.eqb_spec (Owner row) (owner m)) as [Ho|]; [|reflexivity].
    exfalso. exact (Hno row Hin Hn Ho). }
  destruct (no_row_filter _ _ Hnone) as (Hfil & Hfind & Hmap).
  set (msg := match lastError with None => "" | Some e => Error e end).
  set (q := unlock_query msg (name l) (owner m)).
  assert (Hexec : mem_Exec d q w
                  = (inl (mkResult (inl 0)),
                     mkMem (table w) (now w) (next_id w + 1) [] (others w) (ids w))).
  { rewrite (mem_Exec_quiet d q w Hf). unfold q, unlock_query. cbn [run_stmt fst snd].
    rewrite Hfil, Hmap. reflexivity. }
  split; [|split].
  - unfold Lock_Unlock, bind.
    rewrite (deref_run _ _ _ Hr), Hd, Exec_run. fold msg q.
    cbn [world]. change (db_Exec d q w) with (mem_Exec d q w).
    rewrite Hexec. reflexivity.
  - unfold Lock_Unlock, bind.
    rewrite (deref_run _ _ _ Hr), Hd, Exec_run. fold msg q.
    unfold st_Exec. cbn [world]. change (db_Exec d q w) with (mem_Exec d q w).
    rewrite Hexec. reflexivity.
  - rewrite (LastError_run (mkSt w hp tr) l m d Hr Hd). cbn [fst world].
    change (db_Get_string d ?x w) with (mem_Get_string d x w).
    unfold mem_Get_string. rewrite (next_fault_nil w Hf).
    unfold last_error_query. cbn [fst]. rewrite Hfind. reflexivity.
Qed.

(** A guarded takeover on a lock whose rows are all in use changes
    nothing and reports the guard. *)
Lemma mem_guarded_blocked d self nm o w :
  faults w = [] ->
  (forall row, In row (table w) -> Name row = nm -> InUse row = true) ->
  mem_Exec d (takeover_query self nm o false) w
  = (inl (mkResult (inl 0)),
     mkMem (table w) (now w) (next_id w + 1) [] (others w) (ids w)).
Proof.
  intros Hf Hused.
  assert (Hnone : forall row, In row (table w) ->
            where_holds (takeover_where nm o false) row = false).
  { intros row Hin. unfold takeover_where, where_holds. cbn [forallb holds].
    destruct (String.eqb_spec (Name row) nm) as [Hn|]; [|reflexivity].
    rewrite (Hused row Hin Hn). reflexivity. }
  destruct (no_row_filter _ _ Hnone) as (Hfil & _ & Hmap).
  rewrite (mem_Exec_quiet d _ w Hf). unfold takeover_query. cbn [run_stmt fst snd].
  rewrite Hfil, Hmap. reflexivity.
Qed.

(** A loop that meets only rows in use ends with the timeout and has
    changed no row. *)
Lemma poll_blocked n : forall (stl : St Mem) r m d nm acquireTimeout e timer,
  points_to stl r m -> db m = Some d ->
  faults (world stl) = [] -> others (world stl) = [] ->
  (forall row, In row (table (world stl)) -> Name row = nm -> InUse row = true) ->
  timer - now (world stl) <= Z.of_nat n * PollInterval ->
  exists st',
    poll (S n) r nm acquireTimeout (Some e) timer stl
    = (Done (None, Some AcquireTimeoutErr), st')
    /\ table (world st') = table (world stl).
Proof.
  assert (HPI : PollInterval = 1000000000) by reflexivity.
  induction n as [|n IH];
    intros stl r m d nm acquireTimeout e timer Hr Hd Hf Ho Hused Hleft;
    rewrite (poll_step stl _ r m d nm acquireTimeout e timer Hr Hd);
    change (fst (timer_C timer (world stl))) with (timer <=? now (world stl));
    destruct (Z.leb_spec timer (now (world stl))) as [Hfired|Hnot].
  - exists (st_select timer stl). split; reflexivity.
  - cbn in Hleft. lia.
  - exists (st_select timer stl). split; reflexivity.
  - set (sts := st_Sleep PollInterval (st_select timer stl)).
    destruct (mem_Sleep_alone PollInterval (world stl) Ho) as (Ht & Ho' & Hn & Hf').
    change (mem_Sleep PollInterval (world stl)) with (world sts) in Ht, Ho', Hn, Hf'.
    rewrite Hf in Hf'.
    assert (Hused' : forall row, In row (table (world sts)) -> Name row = nm ->
                                 InUse row = true) by (rewrite Ht; exact Hused).
    set (upd := takeover_query (owner m) nm (Owner e) false).
    pose proof (mem_guarded_blocked d (owner m) nm (Owner e) (world sts) Hf' Hused')
      as Hexec.
    fold upd in Hexec.
    change (db_Exec d upd (world sts)) with (mem_Exec d upd (world sts)).
    rewrite Hexec. cbn [fst takeover_answer RowsAffected].
    change (1 <? 0) with false. change (0 =? 0) with true. cbv iota.
    change (st_turn d upd timer stl) with (st_Exec d upd sts).
    set (stt := st_Exec d upd sts).
    assert (Hw : world stt
                 = mkMem (table (world sts)) (now (world sts)) (next_id (world sts) + 1)
                     [] (others (world sts)) (ids (world sts))).
    { unfold stt, st_Exec. cbn [world].
      change (db_Exec d upd (world sts)) with (mem_Exec d upd (world sts)).
      rewrite Hexec. reflexivity. }
    destruct (IH stt r m d nm acquireTimeout e timer) as (st' & Hrun & Htab).
    + destruct r; exact Hr.
    + exact Hd.
    + rewrite Hw. reflexivity.
    + rewrite Hw. exact Ho'.
    + rewrite Hw. exact Hused'.
    + rewrite Hw. cbn [now]. rewrite Hn, HPI in *. lia.
    + exists st'. split; [exact Hrun|].
      rewrite Htab, Hw. cbn [table]. exact Ht.
Qed.

(** X14. A lock that is held and fresh is not taken.  On a store that
    meets no fault and with no other client at work, if every row of the
    name is in use and the one fetched was last used no more than [MaxAge]
    ago, [Lock] ends with [AcquireTimeoutErr] and has changed no row. *)
Theorem Lock_respects_holder (w : Mem) (hp : list RLock) (tr : list Event) (fuel : nat)
    (r : ptr) (m : RLock) (d : DB) (nm : string) (acquireTimeout : Duration)
    (e : LockEntry) :
  points_to (mkSt w hp tr) r m -> db m = Some d ->
  faults w = [] -> others w = [] ->
  find (where_holds [F_name nm]) (table w) = Some e ->
  (forall row, In row (table w) -> Name row = nm -> InUse row = true) ->
  now w - LastUsed e <= MaxAge ->
  (Z.to_nat (Z.max 0 acquireTimeout / PollInterval) + 2 <= fuel)%nat ->
  exists st',
    RLock_Lock fuel r nm acquireTimeout (mkSt w hp tr)
    = (Done (None, Some AcquireTimeoutErr), st')
    /\ table (world st') = table w.
Proof.
  intros Hr Hd Hf Ho Hfind Hused Hfresh Hfuel.
  set (st := mkSt w hp tr).
  destruct (find_some _ _ Hfind) as (Hin & Hwe).
  assert (Hname : Name e = nm).
  { unfold where_holds in Hwe. cbn [forallb holds] in Hwe.
    rewrite andb_true_r in Hwe. apply String.eqb_eq, Hwe. }
  set (ins := insert_query nm (owner m)).
  set (sel := SELECT_star [F_name nm]).
  set (w1 := mkMem (table w) (now w) (next_id w + 1) [] (others w) (ids w)).
  assert (Hins : db_Exec d ins (world st)
                 = (inr (MySQLError 1062 ("Duplicate entry '" ++ nm ++ "' for key 'name'")),
                    w1)).
  { change (db_Exec d ins (world st)) with (mem_Exec d ins w).
    rewrite (mem_Exec_quiet d ins w Hf). unfold ins, insert_query. cbn [run_stmt].
    change (Name (apply_set [F_name nm; F_owner (owner m); F_in_use true]
                    (blank_row (next_id w) (now w)))) with nm.
    assert (Htaken : name_taken nm (table w) = true).
    { apply name_taken_In. unfold names. rewrite <- Hname. apply in_map, Hin. }
    rewrite Htaken. reflexivity. }
  assert (Hget : db_Get_entry d sel w1 = (inl e, w1)).
  { change (db_Get_entry d sel w1) with (mem_Get_entry d sel w1).
    unfold mem_Get_entry. rewrite (next_fault_nil w1 eq_refl).
    unfold sel. cbn [table w1]. rewrite Hfind. reflexivity. }
  rewrite (Lock_valid_run st fuel r m d nm acquireTimeout
             (MySQLError 1062 ("Duplicate entry '" ++ nm ++ "' for key 'name'")) e Hr Hd).
  - fold ins sel. rewrite Hins. cbn [snd]. rewrite Hget. cbn [snd].
    destruct fuel as [|n]; [lia|].
    set (st2 := mkSt w1 (heap st) (trace st ++ [EvExec d ins; EvGet d sel])%list).
    assert (HPI : PollInterval = 1000000000) by reflexivity.
    pose proof (fuel_covers (Z.max 0 acquireTimeout) n Hfuel) as Hcov.
    destruct (poll_blocked n st2 r m d nm acquireTimeout e
                (clock w1 + Z.max 0 acquireTimeout)) as (st' & Hrun & Htab).
    + destruct r; exact Hr.
    + exact Hd.
    + reflexivity.
    + exact Ho.
    + exact Hused.
    + unfold st2. cbn [world]. change (clock w1) with (now w).
      change (now w1) with (now w). lia.
    + exists st'. split; [exact Hrun|exact Htab].
  - fold ins. rewrite Hins. reflexivity.
  - reflexivity.
  - fold ins sel. rewrite Hins. cbn [snd]. rewrite Hget. reflexivity.
  - fold ins sel. rewrite Hins. cbn [snd]. rewrite Hget. cbn [snd].
    change (clock w1) with (now w).
    intros [Hx|[_ Hx]]; [rewrite (Hused e Hin Hname) in Hx; discriminate|lia].
Qed.

Lemma absent_row nm rows r :
  name_taken nm rows = false -> In r rows -> String.eqb (Name r) nm = false.
Proof.
  intros Hn Hin. destruct (String.eqb (Name r) nm) eqn:Hr; [|reflexivity].
  assert (Ht : name_taken nm rows = true)
    by (apply existsb_exists; exists r; split; assumption).
  congruence.
Qed.

(** X15. Takeover is a compare-and-swap on the owner.  The table holds
    one row for the name, with owner [a]; a manager with another token
    takes it over on that observation (not forced, the row must be out of
    use).  Then any takeover on the same observation [a], forced or not
    and by whichever manager, affects no row: it returns the guard error
    and leaves the table as it was, with the first taker as holder. *)
Theorem takeover_only_once (pre post : list LockEntry) (row : LockEntry) (t : Time)
    (nid : Z) (oth : list (Time * Stmt)) (uuids : list UUID) (hp : list RLock)
    (tr : list Event) (rb rc : ptr) (mb mc : RLock) (d1 d2 : DB) (force1 force2 : bool) :
  let nm := Name row in
  let a := Owner row in
  let st := mkSt (mkMem (pre ++ row :: post) t nid [] oth uuids) hp tr in
  points_to st rb mb -> db mb = Some d1 ->
  points_to st rc mc -> db mc = Some d2 ->
  name_taken nm pre = false -> name_taken nm post = false ->
  (force1 = false -> InUse row = false) ->
  owner mb <> a ->
  exists st1 st2,
    takeover rb nm a force1 st = (Done None, st1)
    /\ takeover rc nm a force2 st1
       = (Done (Some (errorString "unable to takeover lock, still in use")), st2)
    /\ table (world st2) = table (world st1)
    /\ held_by nm (owner mb) (table (world st2)).
Proof.
  intros nm a st Hrb Hd1 Hrc Hd2 Hpre Hpost Hfree Hother.
  set (q1 := takeover_query (owner mb) nm a force1).
  set (row1 := touch t (apply_set [F_owner (owner mb); F_in_use true] row)).
  set (w1 := mkMem (pre ++ row1 :: post) t (nid + 1) [] oth uuids).
  assert (Hrow : where_holds (takeover_where nm a force1) row = true).
  { apply where_holds_takeover. auto. }
  assert (Hexec1 : mem_Exec d1 q1 (world st) = (inl (mkResult (inl 1)), w1)).
  { rewrite mem_Exec_quiet by reflexivity. unfold q1, takeover_query, st.
    cbn [world now next_id table others ids].
    assert (Hshape : exists conds, takeover_where nm a force1 = F_name nm :: conds)
      by (destruct force1; eexists; reflexivity).
    destruct Hshape as (conds & Hshape). rewrite Hshape in Hrow |- *.
    rewrite (update_the_row t nid _ nm conds pre row post Hpre Hpost Hrow).
    reflexivity. }
  set (st1 := st_Exec d1 q1 st).
  assert (Hw1 : world st1 = w1).
  { unfold st1, st_Exec. cbn [world].
    change (db_Exec d1 q1 (world st)) with (mem_Exec d1 q1 (world st)).
    rewrite Hexec1. reflexivity. }
  assert (Hrc1 : points_to st1 rc mc) by (destruct rc; exact Hrc).
  set (q2 := takeover_query (owner mc) nm a force2).
  assert (Hnone : forall r0, In r0 (table w1) ->
            where_holds (takeover_where nm a force2) r0 = false).
  { intros r0 Hin. cbn [table w1] in Hin.
    destruct (where_holds (takeover_where nm a force2) r0) eqn:Hw; [|reflexivity].
    apply where_holds_takeover in Hw as (Hn & Ho & _).
    apply in_app_or in Hin as [Hin|[<-|Hin]].
    - pose proof (absent_row nm pre r0 Hpre Hin) as Hx.
      rewrite Hn, String.eqb_refl in Hx. discriminate.
    - cbn in Ho. contradiction.
    - pose proof (absent_row nm post r0 Hpost Hin) as Hx.
      rewrite Hn, String.eqb_refl in Hx. discriminate. }
  destruct (no_row_filter _ _ Hnone) as (Hfil & _ & Hmap).
  assert (Hexec2 : mem_Exec d2 q2 w1
                   = (inl (mkResult (inl 0)),
                      mkMem (table w1) t (nid + 1 + 1) [] oth uuids)).
  { rewrite mem_Exec_quiet by reflexivity. unfold q2, takeover_query.
    cbn [run_stmt fst snd]. rewrite Hfil, Hmap. reflexivity. }
  exists st1, (st_Exec d2 q2 st1).
  split; [|split; [|split]].
  - rewrite (takeover_run st rb mb d1 nm a force1 Hrb Hd1). fold q1.
    change (db_Exec d1 q1 (world st)) with (mem_Exec d1 q1 (world st)).
    rewrite Hexec1. reflexivity.
  - rewrite (takeover_run st1 rc mc d2 nm a force2 Hrc1 Hd2). fold q2.
    rewrite Hw1. change (db_Exec d2 q2 w1) with (mem_Exec d2 q2 w1).
    rewrite Hexec2. reflexivity.
  - unfold st_Exec at 1. cbn [world]. rewrite Hw1.
    change (db_Exec d2 q2 w1) with (mem_Exec d2 q2 w1).
    rewrite Hexec2. reflexivity.
  - unfold st_Exec at 1. cbn [world]. rewrite Hw1.
    change (db_Exec d2 q2 w1) with (mem_Exec d2 q2 w1).
    rewrite Hexec2. cbn [snd table w1].
    exists row1. split; [apply in_or_app; right; left; reflexivity|].
    cbn. auto.
Qed.

(** X16. A stale lock is taken over at once.  The table holds one row for
    the name, in use and last used more than [MaxAge] ago; on a store that
    meets no fault [Lock] returns a handle after the insert, the fetch and
    one forced takeover, without a sleep and whatever the bound on the
    loop.  The row then bears the manager's token and in_use; its
    last_error, id and creation time are as they were. *)
Theorem stale_lock_is_taken_over (pre post : list LockEntry) (row : LockEntry)
    (t : Time) (nid : Z) (oth : list (Time * Stmt)) (uuids : list UUID)
    (hp : list RLock) (tr : list Event) (fuel : nat) (r : ptr) (m : RLock) (d : DB)
    (acquireTimeout : Duration) :
  let nm := Name row in
  let st := mkSt (mkMem (pre ++ row :: post) t nid [] oth uuids) hp tr in
  points_to st r m -> db m = Some d ->
  name_taken nm pre = false -> name_taken nm post = false ->
  InUse row = true -> t - LastUsed row > MaxAge ->
  exists st',
    RLock_Lock fuel r nm acquireTimeout st
    = (Done (Some (mkLock r nm acquireTimeout), None), st')
    /\ table (world st')
       = (pre ++ mkLockEntry (ID row) nm (owner m) true (LastError row) t (CreatedAt row)
              :: post)%list
    /\ trace st'
       = (tr ++ [EvExec d (INSERT [F_name nm; F_owner (owner m); F_in_use true]);
                 EvGet d (SELECT_star [F_name nm]);
                 EvExec d (UPDATE [F_owner (owner m); F_in_use true]
                             [F_name nm; F_owner (Owner row)])])%list.
Proof.
  intros nm st Hr Hd Hpre Hpost Huse Hold.
  set (ins := insert_query nm (owner m)).
  set (sel := SELECT_star [F_name nm]).
  set (w1 := mkMem (pre ++ row :: post) t (nid + 1) [] oth uuids).
  assert (Hins : db_Exec d ins (world st)
                 = (inr (MySQLError 1062 ("Duplicate entry '" ++ nm ++ "' for key 'name'")),
                    w1)).
  { change (db_Exec d ins (world st)) with (mem_Exec d ins (world st)).
    rewrite mem_Exec_quiet by reflexivity. unfold ins, insert_query, st.
    cbn [world now next_id table others ids run_stmt].
    change (Name (apply_set [F_name nm; F_owner (owner m); F_in_use true]
                    (blank_row nid t))) with nm.
    rewrite (name_taken_the_row nm pre row post eq_refl). reflexivity. }
  assert (Hget : db_Get_entry d sel w1 = (inl row, w1)).
  { change (db_Get_entry d sel w1) with (mem_Get_entry d sel w1).
    unfold mem_Get_entry. rewrite (next_fault_nil w1 eq_refl).
    unfold sel. cbn [table w1].
    rewrite (find_the_row nm [] pre row post Hpre); [reflexivity|].
    unfold where_holds. cbn [forallb holds]. unfold nm.
    rewrite String.eqb_refl. reflexivity. }
  set (forced := takeover_query (owner m) nm (Owner row) true).
  set (row2 := touch t (apply_set [F_owner (owner m); F_in_use true] row)).
  assert (Hforced : db_Exec d forced w1
                    = (inl (mkResult (inl 1)),
                       mkMem (pre ++ row2 :: post) t (nid + 1 + 1) [] oth uuids)).
  { change (db_Exec d forced w1) with (mem_Exec d forced w1).
    rewrite mem_Exec_quiet by reflexivity.
    unfold forced, takeover_query, takeover_where.
    cbn [now next_id table others ids w1].
    rewrite (update_the_row t _ _ nm _ pre row post Hpre Hpost); [reflexivity|].
    unfold where_holds. cbn [forallb holds]. unfold nm.
    rewrite !String.eqb_refl. reflexivity. }
  destruct (Lock_invalid_run st fuel r m d nm acquireTimeout
              (MySQLError 1062 ("Duplicate entry '" ++ nm ++ "' for key 'name'")) row Hr Hd)
    as (_ & Hrun).
  - fold ins. rewrite Hins. reflexivity.
  - reflexivity.
  - fold ins sel. rewrite Hins. cbn [snd]. rewrite Hget. reflexivity.
  - right. split; [exact Huse|].
    fold ins sel. rewrite Hins. cbn [snd]. rewrite Hget. exact Hold.
  - fold ins sel forced in Hrun. rewrite Hins in Hrun. cbn [snd] in Hrun.
    rewrite Hget in Hrun. cbn [snd] in Hrun. rewrite Hforced in Hrun.
    cbn [fst takeover_answer RowsAffected] in Hrun.
    change (1 <? 1) with false in Hrun. change (1 =? 0) with false in Hrun.
    cbv iota in Hrun.
    eexists. split; [exact Hrun|]. unfold st_Exec. cbn [world heap trace].
    rewrite Hforced. cbn [snd table]. split.
    + reflexivity.
    + rewrite <- app_assoc. reflexivity.
Qed.

End OnTheTable.

(** ** The further properties at work *)

(** [bob] looks for job-17, which [alice] holds, and gets her record. *)
Lemma getExistingByName_contract_witness :
  let st := two_managers (MemStore.quiet [held 0] 5) in
  points_to st (Some 1%nat) bob /\ db bob = Some 0%nat
  /\ exists err,
      fst (getExistingByName (Some 1%nat) "job-17" st) = Done (Some (held 0), err).
Proof.
  intros st.
  destruct (@getExistingByName_contract _ MemStore.env st (Some 1%nat) bob 0%nat "job-17"
              eq_refl eq_refl) as (rec & err & Hrun & _ & Hfound & _).
  split; [reflexivity|]. split; [reflexivity|].
  exists err. rewrite Hrun. cbn [fst]. rewrite (Hfound (held 0) eq_refl). reflexivity.
Defined.

(** The store refuses [bob]'s takeover statement: the cause is in the
    error. *)
Lemma takeover_reports_failures_witness :
  let w := MemStore.mkMem [released "" 0] 5 1
             [MemStore.CallFails (errorString "connection reset")] [] [] in
  let st := two_managers w in
  points_to st (Some 1%nat) bob /\ db bob = Some 0%nat
  /\ fst (takeover (Some 1%nat) "job-17" "A" false st)
     = Done (Some (errorString "unable to take over 'job-17': connection reset")).
Proof.
  intros w st.
  destruct (@takeover_reports_failures _ MemStore.env st (Some 1%nat) bob 0%nat
              "job-17" "A" false eq_refl eq_refl) as (Hfail & _).
  split; [reflexivity|]. split; [reflexivity|].
  rewrite (Hfail (errorString "connection reset") eq_refl). reflexivity.
Defined.

(** [alice] releases job-17 but the count of rows cannot be read: the
    error is returned and logged once. *)
Lemma Unlock_logs_its_errors_witness :
  let w := MemStore.mkMem [held 0] 5 1
             [MemStore.RowsAffectedFails (errorString "no count")] [] [] in
  let st := two_managers w in
  let l := mkLock (Some 0%nat) "job-17" Second in
  let e := errorString
             "unable to determine affected rows after unlock for 'job-17': no count" in
  points_to st (rl l) alice /\ db alice = Some 0%nat
  /\ fst (Lock_Unlock l None st) = Done (Some e)
  /\ trace (snd (Lock_Unlock l None st))
     = [EvExec 0%nat (UPDATE [F_in_use false; F_last_error ""]
                       [F_name "job-17"; F_owner "A"]);
        EvLog (Error e)].
Proof.
  intros w st l e.
  destruct (@Unlock_logs_its_errors _ MemStore.env st l alice 0%nat None eq_refl eq_refl)
    as (out & Hrun & Hcount).
  pose proof (Hcount (mkResult (inr (errorString "no count"))) (errorString "no count")
                eq_refl eq_refl) as Hout.
  split; [reflexivity|]. split; [reflexivity|].
  rewrite Hrun, Hout. split; reflexivity.
Defined.

(** [bob], who does not own job-17, asks for its last error: no row is
    his, and he gets an error. *)
Lemma LastError_contract_witness :
  let st := two_managers (MemStore.quiet [held 0] 5) in
  let l := mkLock (Some 1%nat) "job-17" Second in
  points_to st (rl l) bob /\ db bob = Some 0%nat
  /\ fst (Lock_LastError l st)
     = Done (Some (errorString
          "unexpected error while fetching last error state: sql: no rows in result set")).
Proof.
  intros st l.
  destruct (@LastError_contract _ MemStore.env st l bob 0%nat eq_refl eq_refl)
    as (out & Hrun & _ & _ & Hfail).
  split; [reflexivity|]. split; [reflexivity|].
  rewrite Hrun. cbn [fst]. rewrite (Hfail sql_ErrNoRows eq_refl). reflexivity.
Defined.

(** [bob] asks for job-17, which [alice] keeps, with a timeout of two
    seconds: the call returns, with an error and no handle. *)
Lemma Lock_returns_witness :
  let st := two_managers (MemStore.quiet [held 0] 5) in
  Timely MemStore.Mem
  /\ points_to st (Some 1%nat) bob /\ db bob = Some 0%nat
  /\ (Z.to_nat ((Z.max 0 (2 * Second) + @timer_lag _ MemStore.env) / PollInterval) + 2
      <= 4)%nat
  /\ exists out st',
      RLock_Lock 4 (Some 1%nat) "job-17" (2 * Second) st = (Done out, st')
      /\ ((exists l, out = (Some l, None)) \/ (exists e, out = (None, Some e))).
Proof.
  intros st.
  assert (Hfuel : (Z.to_nat ((Z.max 0 (2 * Second) + @timer_lag _ MemStore.env)
                             / PollInterval) + 2 <= 4)%nat)
    by (vm_compute; repeat constructor).
  split; [exact mem_timely|]. split; [reflexivity|]. split; [reflexivity|].
  split; [exact Hfuel|].
  exact (@Lock_returns _ MemStore.env mem_timely st 4 (Some 1%nat) bob 0%nat "job-17"
           (2 * Second) eq_refl eq_refl Hfuel).
Defined.

(** The calls of the same run. *)
Lemma Lock_calls_witness :
  let st := two_managers (MemStore.quiet [held 0] 5) in
  let ins := INSERT [F_name "job-17"; F_owner "B"; F_in_use true] in
  let sel := SELECT_star [F_name "job-17"] in
  let inserted := fst (db_Exec 0%nat ins (world st)) in
  let fetched := fst (db_Get_entry 0%nat sel (snd (db_Exec 0%nat ins (world st)))) in
  let after := trace (snd (RLock_Lock 4 (Some 1%nat) "job-17" (2 * Second) st)) in
  points_to st (Some 1%nat) bob /\ db bob = Some 0%nat
  /\ (((forall err, inserted = inr err -> is_dupe err = false)
       /\ after = [EvExec 0%nat ins])
      \/ (exists dupe err,
            inserted = inr dupe /\ is_dupe dupe = true /\ fetched = inr err
            /\ after = [EvExec 0%nat ins; EvGet 0%nat sel])
      \/ (exists dupe e,
            inserted = inr dupe /\ is_dupe dupe = true /\ fetched = inl e
            /\ after = [EvExec 0%nat ins; EvGet 0%nat sel;
                        EvExec 0%nat (UPDATE [F_owner "B"; F_in_use true]
                                        [F_name "job-17"; F_owner (Owner e)])])
      \/ (exists dupe e k,
            inserted = inr dupe /\ is_dupe dupe = true /\ fetched = inl e
            /\ (k <= 4)%nat
            /\ after
               = ([EvExec 0%nat ins; EvGet 0%nat sel]
                  ++ turns 0%nat (UPDATE [F_owner "B"; F_in_use true]
                                   [F_name "job-17"; F_in_use false; F_owner (Owner e)])
                       k)%list)).
Proof.
  intros st ins sel inserted fetched after.
  split; [reflexivity|]. split; [reflexivity|].
  exact (@Lock_calls _ MemStore.env st 4 (Some 1%nat) bob 0%nat "job-17" (2 * Second)
           eq_refl eq_refl).
Defined.

(** [bob] forces the takeover of the stale job-17 while job-18 is in the
    table: the row of job-18 is as it was, and no row has gone. *)
Lemma Lock_keeps_other_locks_witness :
  let w := MemStore.quiet [held 0; other_job] (2 * Hour) in
  let rows' :=
    MemStore.table (world (snd (RLock_Lock 2 (Some 1%nat) "job-17" Second (two_managers w)))) in
  points_to (two_managers w) (Some 1%nat) bob /\ db bob = Some 0%nat
  /\ MemStore.others w = []
  /\ other_rows "job-17" rows' = [other_job]
  /\ (NoDup (names [held 0; other_job]) -> NoDup (names rows'))
  /\ (2 <= List.length rows')%nat.
Proof.
  intros w rows'.
  split; [reflexivity|]. split; [reflexivity|]. split; [reflexivity|].
  exact (Lock_keeps_other_locks w [alice; bob] [] 2 (Some 1%nat) bob 0%nat "job-17" Second
           eq_refl eq_refl eq_refl).
Defined.

(** [alice] releases job-17 while job-18 is in the table. *)
Lemma Unlock_keeps_other_locks_witness :
  let w := MemStore.quiet [held 0; other_job] 5 in
  let l := mkLock (Some 0%nat) "job-17" Second in
  let rows' :=
    MemStore.table (world (snd (Lock_Unlock l (Some (errorString "boom")) (two_managers w)))) in
  points_to (two_managers w) (rl l) alice /\ db alice = Some 0%nat
  /\ other_rows "job-17" rows' = [other_job]
  /\ names rows' = ["job-17"; "job-18"].
Proof.
  intros w l rows'.
  split; [reflexivity|]. split; [reflexivity|].
  exact (Unlock_keeps_other_locks w [alice; bob] [] l alice 0%nat
           (Some (errorString "boom")) eq_refl eq_refl).
Defined.

(** [bob] waits for job-17, which [alice] releases after a second and a
    half: when he gets the handle, the table says he holds the lock. *)
Lemma Lock_holds_record_witness :
  let release := unlock_query "disk full" "job-17" "A" in
  let w := MemStore.mkMem [held 0] 5 1 [] [(3 * Second / 2, release)] [] in
  let st := two_managers w in
  let run := RLock_Lock 7 (Some 1%nat) "job-17" (5 * Second) st in
  points_to st (Some 1%nat) bob /\ db bob = Some 0%nat /\ MemStore.faults w = []
  /\ run = (Done (Some (mkLock (Some 1%nat) "job-17" (5 * Second)), None), snd run)
  /\ held_by "job-17" "B" (MemStore.table (world (snd run))).
Proof.
  intros release w st run.
  assert (Hrun : run = (Done (Some (mkLock (Some 1%nat) "job-17" (5 * Second)), None),
                        snd run)) by (vm_compute; reflexivity).
  split; [reflexivity|]. split; [reflexivity|]. split; [reflexivity|].
  split; [exact Hrun|].
  exact (Lock_holds_record w [alice; bob] [] 7 (Some 1%nat) bob 0%nat "job-17" (5 * Second)
           _ (snd run) eq_refl eq_refl eq_refl Hrun).
Defined.

(** [alice] releases job-17 with the message boom. *)
Lemma Unlock_releases_record_witness :
  let w := MemStore.quiet [held 0] 5 in
  let st := two_managers w in
  let l := mkLock (Some 0%nat) "job-17" Second in
  let run := Lock_Unlock l (Some (errorString "boom")) st in
  points_to st (rl l) alice /\ db alice = Some 0%nat /\ MemStore.faults w = []
  /\ run = (Done None, snd run)
  /\ exists row,
      In row (MemStore.table (world (snd run)))
      /\ Name row = "job-17" /\ Owner row = "A" /\ InUse row = false
      /\ LastError row = "boom".
Proof.
  intros w st l run.
  assert (Hrun : run = (Done None, snd run)) by (vm_compute; reflexivity).
  split; [reflexivity|]. split; [reflexivity|]. split; [reflexivity|].
  split; [exact Hrun|].
  exact (Unlock_releases_record w [alice; bob] [] l alice 0%nat
           (Some (errorString "boom")) (snd run) eq_refl eq_refl eq_refl Hrun).
Defined.

(** [bob] holds a handle for job-17 but the row is [alice]'s. *)
Lemma stranger_cannot_unlock_witness :
  let w := MemStore.quiet [held 0] 5 in
  let st := two_managers w in
  let l := mkLock (Some 1%nat) "job-17" Second in
  points_to st (rl l) bob /\ db bob = Some 0%nat /\ MemStore.faults w = []
  /\ (forall row, In row [held 0] -> Name row = "job-17" -> Owner row <> "B")
  /\ fst (Lock_Unlock l None st)
     = Done (Some (errorString "unexpected number of affected rows after unlock (0)"))
  /\ MemStore.table (world (snd (Lock_Unlock l None st))) = [held 0]
  /\ fst (Lock_LastError l st)
     = Done (Some (errorString
          "unexpected error while fetching last error state: sql: no rows in result set")).
Proof.
  intros w st l.
  assert (Hno : forall row, In row [held 0] -> Name row = "job-17" -> Owner row <> "B").
  { intros row [<-|[]] _. discriminate. }
  split; [reflexivity|]. split; [reflexivity|]. split; [reflexivity|].
  split; [exact Hno|].
  exact (stranger_cannot_unlock w [alice; bob] [] l bob 0%nat None
           eq_refl eq_refl eq_refl Hno).
Defined.

(** [alice] holds job-17, fresh; [bob] asks with a timeout of two seconds
    and comes back empty-handed, the table as it was. *)
Lemma Lock_respects_holder_witness :
  let w := MemStore.quiet [held 0; other_job] 5 in
  let st := two_managers w in
  points_to st (Some 1%nat) bob /\ db bob = Some 0%nat
  /\ MemStore.faults w = [] /\ MemStore.others w = []
  /\ find (where_holds [F_name "job-17"]) [held 0; other_job] = Some (held 0)
  /\ (forall row, In row [held 0; other_job] -> Name row = "job-17" -> InUse row = true)
  /\ 5 - LastUsed (held 0) <= MaxAge
  /\ (Z.to_nat (Z.max 0 (2 * Second) / PollInterval) + 2 <= 4)%nat
  /\ exists st',
      RLock_Lock 4 (Some 1%nat) "job-17" (2 * Second) st
      = (Done (None, Some AcquireTimeoutErr), st')
      /\ MemStore.table (world st') = [held 0; other_job].
Proof.
  intros w st.
  assert (Hused : forall row, In row [held 0; other_job] -> Name row = "job-17" ->
                              InUse row = true).
  { intros row [<-|[<-|[]]] _; reflexivity. }
  assert (Hfresh : 5 - LastUsed (held 0) <= MaxAge) by discriminate.
  assert (Hfuel : (Z.to_nat (Z.max 0 (2 * Second) / PollInterval) + 2 <= 4)%nat)
    by (vm_compute; repeat constructor).
  split; [reflexivity|]. split; [reflexivity|]. split; [reflexivity|].
  split; [reflexivity|]. split; [reflexivity|]. split; [exact Hused|].
  split; [exact Hfresh|]. split; [exact Hfuel|].
  exact (Lock_respects_holder w [alice; bob] [] 4 (Some 1%nat) bob 0%nat "job-17"
           (2 * Second) (held 0) eq_refl eq_refl eq_refl eq_refl eq_refl Hused Hfresh Hfuel).
Defined.

(** [alice] has released job-17; [bob] takes it over on the observation
    of her token; a second takeover on the same observation, forced and by
    [alice] herself, finds the guard closed. *)
Lemma takeover_only_once_witness :
  let st := mkSt (MemStore.mkMem [released "" 0] 5 1 [] [] []) [alice; bob] [] in
  points_to st (Some 1%nat) bob /\ db bob = Some 0%nat
  /\ points_to st (Some 0%nat) alice /\ db alice = Some 0%nat
  /\ MemStore.name_taken "job-17" [] = false
  /\ (false = false -> InUse (released "" 0) = false)
  /\ owner bob <> "A"
  /\ exists st1 st2,
      takeover (Some 1%nat) "job-17" "A" false st = (Done None, st1)
      /\ takeover (Some 0%nat) "job-17" "A" true st1
         = (Done (Some (errorString "unable to takeover lock, still in use")), st2)
      /\ MemStore.table (world st2) = MemStore.table (world st1)
      /\ held_by "job-17" "B" (MemStore.table (world st2)).
Proof.
  intros st.
  assert (Hother : owner bob <> "A") by discriminate.
  split; [reflexivity|]. split; [reflexivity|]. split; [reflexivity|].
  split; [reflexivity|]. split; [reflexivity|]. split; [reflexivity|].
  split; [exact Hother|].
  exact (takeover_only_once [] [] (released "" 0) 5 1 [] [] [alice; bob] []
           (Some 1%nat) (Some 0%nat) bob alice 0%nat 0%nat false true
           eq_refl eq_refl eq_refl eq_refl eq_refl eq_refl (fun _ => eq_refl) Hother).
Defined.

(** [alice] has held job-17 untouched, with an old message, for two hours;
    [bob] takes it over at once and the message is still there. *)
Lemma stale_lock_is_taken_over_witness :
  let row := mkLockEntry 1 "job-17" "A" true "old trouble" 0 0 in
  let st := mkSt (MemStore.mkMem [row; other_job] (2 * Hour) 3 [] [] []) [alice; bob] [] in
  points_to st (Some 1%nat) bob /\ db bob = Some 0%nat
  /\ MemStore.name_taken "job-17" [] = false
  /\ MemStore.name_taken "job-17" [other_job] = false
  /\ InUse row = true /\ 2 * Hour - LastUsed row > MaxAge
  /\ exists st',
      RLock_Lock 0 (Some 1%nat) "job-17" Second st
      = (Done (Some (mkLock (Some 1%nat) "job-17" Second), None), st')
      /\ MemStore.table (world st')
         = [mkLockEntry 1 "job-17" "B" true "old trouble" (2 * Hour) 0; other_job]
      /\ trace st'
         = [EvExec 0%nat (INSERT [F_name "job-17"; F_owner "B"; F_in_use true]);
            EvGet 0%nat (SELECT_star [F_name "job-17"]);
            EvExec 0%nat (UPDATE [F_owner "B"; F_in_use true]
                            [F_name "job-17"; F_owner "A"])].
Proof.
  intros row st.
  assert (Hold : 2 * Hour - LastUsed row > MaxAge) by reflexivity.
  split; [reflexivity|]. split; [reflexivity|]. split; [reflexivity|].
  split; [reflexivity|]. split; [reflexivity|]. split; [exact Hold|].
  exact (stale_lock_is_taken_over [] [other_job] row (2 * Hour) 3 [] [] [alice; bob] []
           0 (Some 1%nat) bob 0%nat Second eq_refl eq_refl eq_refl eq_refl eq_refl Hold).
Defined.
